(** * cloudhealth-tools: the perspective spec/schema translator

    A shallow embedding of [chtools/lib/perspective.py].  Python objects
    are modelled as follows.

    - JSON/YAML payloads are [value]s: [None], booleans, strings, lists
      and dictionaries (numbers do not occur in the fields the translator
      touches and are left out, so that Python's [==] on the modelled
      values is structural equality).
    - A dictionary is a [gmap string value]; equality of dictionaries is
      therefore Python's order-insensitive [dict.__eq__].
    - The schema and its constants have a fixed shape dictated by the
      remote service and are records; rules are free-form dictionaries.
    - Rule dictionaries are shared between the caller's spec and the
      schema, so they live in a heap of objects addressed by location.
    - Methods of [Perspective] are computations in a state-and-exception
      monad over the heap and the instance's fields; a raised exception
      leaves the state as mutated so far, as in Python. *)

From Stdlib Require Import Ascii.
From stdpp Require Import gmap strings list fin_maps pretty.

(** ** Python values *)

#[warnings="-register-all"]
Inductive value :=
| VNone
| VBool (b : bool)
| VStr (s : string)
| VList (l : list value)
| VDict (d : gmap string value).

Fixpoint value_eq_dec (x y : value) {struct x} : Decision (x = y).
Proof.
  refine (match x, y with
  | VNone, VNone => left eq_refl
  | VBool a, VBool b => cast_if (decide (a = b))
  | VStr a, VStr b => cast_if (decide (a = b))
  | VList a, VList b =>
      cast_if (@decide (a = b) (@list_eq_dec _ value_eq_dec a b))
  | VDict a, VDict b =>
      cast_if (@decide (a = b) (@gmap_eq_dec _ _ _ _ value_eq_dec a b))
  | _, _ => right _
  end); congruence.
Defined.

#[global] Instance value_eqdec : EqDecision value := value_eq_dec.
#[global] Instance value_inhabited : Inhabited value := populate VNone.

Abbreviation dict := (gmap string value).

(** Truth value of an object in a boolean context ([if x:], [not x]). *)
Definition truthy (v : value) : bool :=
  match v with
  | VNone => false
  | VBool b => b
  | VStr s => negb (bool_decide (s = ""))
  | VList l => negb (bool_decide (l = []))
  | VDict d => negb (bool_decide (d = ∅))
  end.

(** [d.get(k)]: the value, or [None] when the key is absent. *)
Definition dict_get (d : dict) (k : string) : value := default VNone (d !! k).

(** [type(v) is str] and [type(v) is list]. *)
Definition is_str (v : value) : bool :=
  match v with VStr _ => true | _ => false end.
Definition is_list (v : value) : bool :=
  match v with VList _ => true | _ => false end.

(** [str.lower], on the ASCII letters.  The only use compares the result
    with the all-ASCII words filter, search and categorize. *)
Definition ascii_lower (c : ascii) : ascii :=
  let n := N_of_ascii c in
  if ((65 <=? n) && (n <=? 90))%N then ascii_of_N (n + 32) else c.

Fixpoint lower (s : string) : string :=
  match s with
  | EmptyString => EmptyString
  | String c s' => String (ascii_lower c) (lower s')
  end.

(** [str(n)] for a non-negative integer: its decimal numeral. *)
Definition str (n : N) : string := pretty n.

(** ** Exceptions *)

(** The payload of a [RuntimeError]: which [raise] statement produced it. *)
Inductive runtime_error :=
| ExpectedSingleItemList   (* "Expected ... to have list with just 1 item." *)
| UnknownRuleType          (* "Unknown rule_type: ..." *)
| NameDoesNotMatch         (* "perspective_name ... does not match name ..." *)
| DoesNotExist             (* "Perspective with name ... does not exist." *)
| IdMustBeSet.             (* "Perspective Id must be set ..." *)

Inductive exn :=
| KeyError (k : string)
| TypeError
| AttributeError
| RuntimeError (r : runtime_error).

(** The outcome of a call.  [Diverged] is not a Python outcome: it is what
    a loop of the model answers when its fuel runs out. *)
Inductive res (A : Type) :=
| Ok (a : A)
| Raise (e : exn)
| Diverged.
Arguments Ok {A} a.
Arguments Raise {A} e.
Arguments Diverged {A}.

(** ** The schema *)

Definition loc := nat.

(** An entry of a constant's ['list']. *)
Record Item := mkItem {
  item_ref_id : value;
  item_name : value;
  item_is_other : option value
}.

(** An entry of the schema's ['constants']. *)
Record Constant := mkConstant {
  const_type : string;
  const_list : list Item
}.

(** The schema; [R] is how a rule is held: a location of the heap for the
    schema of a live [Perspective], a dictionary for a JSON payload. *)
Record Schema (R : Type) := mkSchema {
  name : value;
  merges : value;
  constants : list Constant;
  include_in_reports : value;
  rules : list R
}.
Arguments mkSchema {R}.
Arguments name {R}.
Arguments merges {R}.
Arguments constants {R}.
Arguments include_in_reports {R}.
Arguments rules {R}.

(** A spec as handed to the translator: ['name'] and ['rules'] are read
    with [spec[...]], ['include_in_reports'] with [spec.get(...)]. *)
Record Spec (R : Type) := mkSpec {
  spec_name : value;
  spec_include_in_reports : option value;
  spec_rules : list R
}.
Arguments mkSpec {R}.
Arguments spec_name {R}.
Arguments spec_include_in_reports {R}.
Arguments spec_rules {R}.

#[global] Instance Item_eqdec : EqDecision Item.
Proof. solve_decision. Defined.
#[global] Instance Constant_eqdec : EqDecision Constant.
Proof. solve_decision. Defined.

(** ** The [Perspective] instance and the world it runs in *)

Record Perspective := mkPerspective {
  _new_ref_id : N;
  _id : option string;
  _uri : string;
  _schema : Schema loc
}.

Record World := mkWorld {
  heap : gmap loc dict;
  self : Perspective
}.

Definition set_schema (f : Schema loc → Schema loc) (w : World) : World :=
  mkWorld (heap w)
    (mkPerspective (_new_ref_id (self w)) (_id (self w)) (_uri (self w))
                   (f (_schema (self w)))).

Definition set_new_ref_id (n : N) (w : World) : World :=
  mkWorld (heap w)
    (mkPerspective n (_id (self w)) (_uri (self w)) (_schema (self w))).

Definition set_heap (f : gmap loc dict → gmap loc dict) (w : World) : World :=
  mkWorld (f (heap w)) (self w).

Definition set_name (v : value) (s : Schema loc) : Schema loc :=
  mkSchema v (merges s) (constants s) (include_in_reports s) (rules s).
Definition set_include_in_reports (v : value) (s : Schema loc) : Schema loc :=
  mkSchema (name s) (merges s) (constants s) v (rules s).
Definition set_constants (cs : list Constant) (s : Schema loc) : Schema loc :=
  mkSchema (name s) (merges s) cs (include_in_reports s) (rules s).
Definition set_rules (rs : list loc) (s : Schema loc) : Schema loc :=
  mkSchema (name s) (merges s) (constants s) (include_in_reports s) rs.

(** The [schema] property.  [_schema] is a loaded, non-empty dictionary
    throughout the translation, so the lazy fetch is never taken. *)
Definition schema (w : World) : Schema loc := _schema (self w).

(** ** The monad *)

(** A computation over a state [Σ] that returns, raises or runs out of
    fuel, and hands on the state in each case. *)
Definition ST (Σ A : Type) : Type := Σ → res A * Σ.

Definition ret {Σ A} (a : A) : ST Σ A := λ σ, (Ok a, σ).
Definition raise {Σ A} (e : exn) : ST Σ A := λ σ, (Raise e, σ).
Definition bind {Σ A B} (k : A → ST Σ B) (m : ST Σ A) : ST Σ B :=
  λ σ, match m σ with
       | (Ok a, σ') => k a σ'
       | (Raise e, σ') => (Raise e, σ')
       | (Diverged, σ') => (Diverged, σ')
       end.

#[global] Instance ST_ret Σ : MRet (ST Σ) := @ret Σ.
#[global] Instance ST_bind Σ : MBind (ST Σ) := @bind Σ.

(** The methods of a [Perspective] run on a [World]. *)
Abbreviation M := (ST World).

Definition get_world : M World := λ w, (Ok w, w).
Definition modify (f : World → World) : M unit := λ w, (Ok tt, f w).

(** A [for] loop whose body may raise. *)
Fixpoint for_each {Σ A} (l : list A) (body : A → ST Σ unit) : ST Σ unit :=
  match l with
  | [] => ret tt
  | x :: l' => body x ;; for_each l' body
  end.

(** *** Operations on the rule objects of the heap *)

(** The dictionary at a location. *)
Definition obj (w : World) (l : loc) : dict := heap w !!! l.

(** [rule[k]] *)
Definition getitem (l : loc) (k : string) : M value :=
  λ w, match obj w l !! k with
       | Some v => (Ok v, w)
       | None => (Raise (KeyError k), w)
       end.

(** [rule.get(k)] *)
Definition get (l : loc) (k : string) : M value :=
  λ w, (Ok (dict_get (obj w l) k), w).

(** [rule[k] = v] *)
Definition setitem (l : loc) (k : string) (v : value) : M unit :=
  modify (λ w, set_heap <[l := <[k := v]> (obj w l)]> w).

(** [del rule[k]] *)
Definition delitem (l : loc) (k : string) : M unit :=
  λ w, match obj w l !! k with
       | Some _ => (Ok tt, set_heap <[l := delete k (obj w l)]> w)
       | None => (Raise (KeyError k), w)
       end.

(** ** RefIdAllocator: [Perspective._get_new_ref_id] *)

(** The types of constant that have ref_ids we care about. *)
Definition constant_types : list string :=
  ["Static Group"; "Dynamic Group Block"].

(** The [existing_ref_ids] list built inside the loop. *)
Definition existing_ref_ids {R} (s : Schema R) : list value :=
  flat_map (λ constant,
      if bool_decide (const_type constant ∈ constant_types)
      then item_ref_id <$> const_list constant
      else [])
    (constants s).

(** The [while True] loop, with fuel. *)
Fixpoint _get_new_ref_id_loop (fuel : nat) : M value :=
  match fuel with
  | O => λ w, (Diverged, w)
  | S fuel' =>
      modify (λ w, set_new_ref_id (_new_ref_id (self w) + 1) w) ;;
      w ← get_world ;
      if bool_decide (VStr (str (_new_ref_id (self w)))
                        ∉ existing_ref_ids (schema w))
      then ret (VStr (str (_new_ref_id (self w))))
      else _get_new_ref_id_loop fuel'
  end.

(** The property itself.  Each round consumes a candidate, and only the
    candidates present in the schema are rejected, so one round more than
    there are ref_ids is all the loop can use. *)
Definition _get_new_ref_id : M value :=
  w ← get_world ;
  _get_new_ref_id_loop (S (length (existing_ref_ids (schema w)))).

(** ** ConstantRegistry *)

(** The constants the two lookups scan. *)
Definition group_constants {R} (s : Schema R) : list Constant :=
  filter (λ constant, const_type constant ∈ constant_types) (constants s).

(** Their items, in the order the nested loops visit them. *)
Definition group_items {R} (s : Schema R) : list Item :=
  flat_map const_list (group_constants s).

(** [not item.get('is_other')] *)
Definition not_is_other (item : Item) : bool :=
  negb (truthy (default VNone (item_is_other item))).

(** [Perspective._get_name_by_ref_id]: the nested loops return at the
    first item that matches, in the order of the constants. *)
Definition _get_name_by_ref_id {R} (ref_id : value) (s : Schema R) : value :=
  match List.find
          (λ item, bool_decide (item_ref_id item = ref_id) && not_is_other item)
          (group_items s) with
  | Some item => item_name item
  | None => VNone
  end.

(** [Perspective._get_ref_id_by_name] *)
Definition _get_ref_id_by_name {R} (constant_name : value) (s : Schema R)
  : value :=
  match List.find
          (λ item,
             bool_decide (item_name item = constant_name) && not_is_other item)
          (group_items s) with
  | Some item => item_ref_id item
  | None => VNone
  end.

(** [constant['list'].append(new_group)] *)
Definition list_append (new_group : Item) (constant : Constant) : Constant :=
  mkConstant (const_type constant) (const_list constant ++ [new_group]).

(** [Perspective._add_constant].  The variable [constant] of the source
    aliases an entry of [schema['constants']]; here it is its index. *)
Definition _add_constant (constant_name : value) (constant_type : string)
  : M value :=
  w ← get_world ;
  let ref_id := _get_ref_id_by_name constant_name (schema w) in
  if truthy ref_id then mret ref_id
  else
    constant ←
      match list_find (λ item, const_type item = constant_type)
                      (constants (schema w)) with
      | Some (i, _) => mret i
      | None =>
          modify (set_schema (λ s,
            set_constants (constants s ++ [mkConstant constant_type []]) s)) ;;
          mret (length (constants (schema w)))
      end ;
    ref_id ← _get_new_ref_id ;
    modify (set_schema (λ s,
      set_constants
        (alter (list_append (mkItem ref_id constant_name None)) constant
               (constants s)) s)) ;;
    mret ref_id.

(** [Perspective._add_rule] *)
Definition _add_rule (rule_definition : loc) : M unit :=
  modify (set_schema (λ s, set_rules (rules s ++ [rule_definition]) s)).

(** ** RuleNormalizer *)

Definition _single_item_list_keys : list string := ["field"; "tag_field"].

(** One round of [for key, value in d.items()] in the spec-to-schema
    direction: a string under one of the keys becomes a one-item list. *)
Definition to_single_item_list (key : string) (v : value) : value :=
  if bool_decide (key ∈ _single_item_list_keys) && is_str v
  then VList [v] else v.

Definition wrap_items (d : dict) : dict :=
  map_imap (λ key v, Some (to_single_item_list key v)) d.

(** The same round in the schema-to-spec direction: a list under one of
    the keys must have one item, which replaces it. *)
Definition single_item_ok (key : string) (v : value) : bool :=
  match v with
  | VList l =>
      if bool_decide (key ∈ _single_item_list_keys)
      then bool_decide (length l = 1) else true
  | _ => true
  end.

Definition from_single_item_list (key : string) (v : value) : value :=
  match v with
  | VList [x] => if bool_decide (key ∈ _single_item_list_keys) then x else v
  | _ => v
  end.

Definition items_ok (d : dict) : bool :=
  bool_decide (map_Forall (λ key v, single_item_ok key v = true) d).

Definition unwrap_dict (d : dict) : dict :=
  map_imap (λ key v, Some (from_single_item_list key v)) d.

Definition unwrap_items (d : dict) : exn + dict :=
  if items_ok d then inr (unwrap_dict d)
  else inl (RuntimeError ExpectedSingleItemList).

(** [v[k]] for a value that passed a truth test. *)
Definition subscript (v : value) (k : string) : exn + value :=
  match v with
  | VDict d =>
      match d !! k with Some x => inr x | None => inl (KeyError k) end
  | _ => inl TypeError
  end.

(** The loop over the clauses: each clause is asked for its [items()], so
    it must be a dictionary; the clauses before a failing one keep their
    update. *)
Fixpoint map_clauses (body : dict → exn + dict) (clauses : list value)
  : list value * option exn :=
  match clauses with
  | [] => ([], None)
  | VDict clause :: clauses' =>
      match body clause with
      | inr clause' =>
          let '(done, e) := map_clauses body clauses' in
          (VDict clause' :: done, e)
      | inl e => (clauses, Some e)
      end
  | _ :: _ => (clauses, Some AttributeError)
  end.

(** The loop over the rule's own items. *)
Definition for_items (rule : loc) (body : dict → exn + dict) : M unit :=
  λ w, match body (obj w rule) with
       | inr d => (Ok tt, set_heap <[rule := d]> w)
       | inl e => (Raise e, w)
       end.

(** [if rule.get('condition'): for clause in rule['condition']['clauses']:]
    The condition and its clauses are held by value inside the rule. *)
Definition for_clauses (rule : loc) (body : dict → exn + dict) : M unit :=
  condition ← get rule "condition" ;
  if truthy condition then
    match subscript condition "clauses" with
    | inl e => raise e
    | inr (VList clauses) =>
        let '(done, e) := map_clauses body clauses in
        match condition with
        | VDict d =>
            setitem rule "condition" (VDict (<["clauses" := VList done]> d))
        | _ => mret tt
        end ;;
        match e with Some e => raise e | None => mret tt end
    | inr (VStr s) =>
        if bool_decide (s = "") then mret tt else raise AttributeError
    | inr (VDict d) =>
        if bool_decide (d = ∅) then mret tt else raise AttributeError
    | inr _ => raise TypeError
    end
  else mret tt.

(** ** SpecTranslator *)

(** [rule['type'].lower()] *)
Definition str_lower (v : value) : M string :=
  match v with
  | VStr s => mret (lower s)
  | _ => raise AttributeError
  end.

(** [Perspective._spec_rule_to_schema] *)
Definition _spec_rule_to_schema (rule : loc) : M unit :=
  to ← getitem rule "to" ;
  constant_name ← (if truthy to then mret to else getitem rule "ref_id") ;
  type ← getitem rule "type" ;
  rule_type ← str_lower type ;
  constant_type ←
    (if bool_decide (rule_type ∈ ["filter"; "search"]) then
       setitem rule "type" (VStr "filter") ;;
       mret "Static Group"
     else if bool_decide (rule_type = "categorize") then
       mret "Dynamic Group Block"
     else raise (RuntimeError UnknownRuleType)) ;
  ref_id ← _add_constant constant_name constant_type ;
  setitem rule "to" ref_id ;;
  (if bool_decide (rule_type = "categorize") then
     to ← getitem rule "to" ;
     setitem rule "ref_id" to ;;
     delitem rule "to"
   else mret tt) ;;
  for_items rule (λ d, inr (wrap_items d)) ;;
  for_clauses rule (λ d, inr (wrap_items d)) ;;
  _add_rule rule.

(** [Perspective._schema_from_spec] *)
Definition _schema_from_spec (spec : Spec loc) : M unit :=
  modify (set_schema (set_name (spec_name spec))) ;;
  (if truthy (default VNone (spec_include_in_reports spec)) then
     match spec_include_in_reports spec with
     | Some v => modify (set_schema (set_include_in_reports v))
     | None => raise (KeyError "include_in_reports")
     end
   else mret tt) ;;
  modify (set_schema (set_rules [])) ;;
  for_each (spec_rules spec) _spec_rule_to_schema.

(** The setter of the [spec] property: the same statements again. *)
Definition spec_setter (spec_input : Spec loc) : M unit :=
  modify (set_schema (set_name (spec_name spec_input))) ;;
  (if truthy (default VNone (spec_include_in_reports spec_input)) then
     match spec_include_in_reports spec_input with
     | Some v => modify (set_schema (set_include_in_reports v))
     | None => raise (KeyError "include_in_reports")
     end
   else mret tt) ;;
  modify (set_schema (set_rules [])) ;;
  for_each (spec_rules spec_input) _spec_rule_to_schema.

(** The body of the loop over the rules in [_spec_from_schema]. *)
Definition _spec_rule_from_schema (rule : loc) : M unit :=
  ref_id ← get rule "ref_id" ;
  (if truthy ref_id then
     ref_id ← getitem rule "ref_id" ;
     setitem rule "to" ref_id ;;
     delitem rule "ref_id"
   else mret tt) ;;
  to ← getitem rule "to" ;
  w ← get_world ;
  setitem rule "to" (_get_name_by_ref_id to (schema w)) ;;
  for_items rule unwrap_items ;;
  for_clauses rule unwrap_items.

(** [Perspective._spec_from_schema].  [copy.deepcopy] gives a copy with
    the sharing of the original, so the loop is run on the heap as it
    stands and its effect on the heap is dropped afterwards: only the
    copy went through it.  The result has the keys of the schema but
    ['merges'] and ['constants']. *)
Definition _spec_from_schema (w : World) : res (Spec dict) :=
  match for_each (rules (schema w)) _spec_rule_from_schema w with
  | (Ok _, copy) =>
      Ok (mkSpec (name (schema w)) (Some (include_in_reports (schema w)))
                 (obj copy <$> rules (schema w)))
  | (Raise e, _) => Raise e
  | (Diverged, _) => Diverged
  end.

(** ** [Perspective.__init__] without a perspective id *)

Definition default_schema : Schema loc :=
  mkSchema (VStr "EMPTY") (VList [])
    [mkConstant "Static Group"
       [mkItem (VStr "1234567890") (VStr "Other") (Some (VStr "true"))]]
    (VStr "true") [].

Definition new_perspective : Perspective :=
  mkPerspective 100 None "v1/perspective_schemas" default_schema.

(** ** [PerspectiveClient] *)

(** [self.id], in a boolean context. *)
Definition has_id (self : Perspective) : bool :=
  match _id self with
  | Some i => negb (bool_decide (i = ""))
  | None => false
  end.

Section PerspectiveClient.
(** The HTTP client and Python's [int] are not part of these sources;
    the client is verified for whatever they are.  [Σ] is the state of
    the remote service together with the objects its responses hold. *)
Context {Σ : Type}.
(** [http_client.get('v1/perspective_schemas/')]: the ids of the
    perspectives with the ['name'] of each. *)
Variable http_get_index : ST Σ (list (string * value)).
(** [http_client.get(uri)['schema']] *)
Variable http_get : string → ST Σ (Schema loc).
(** [http_client.put(uri, {'schema': schema}, params)] *)
Variable http_put : string → Schema loc → ST Σ unit.
(** Whether [int(s)] returns rather than raising [ValueError]. *)
Variable int_parses : string → bool.

(** [PerspectiveClient.index], called with [active=None]. *)
Definition index : ST Σ (list (string * value)) := http_get_index.

(** [PerspectiveClient._get_perspective_id]; [None] when the loop over
    the index ends without a match. *)
Definition _get_perspective_id (perspective_input : string)
  : ST Σ (option string) :=
  if int_parses perspective_input then mret (Some perspective_input)
  else
    perspectives ← index ;
    mret (fst <$> List.find
                    (λ p, bool_decide (p.2 = VStr perspective_input))
                    perspectives).

(** [Perspective.get_schema] *)
Definition get_schema (self : Perspective) : ST Σ Perspective :=
  s ← http_get (_uri self) ;
  mret (mkPerspective (_new_ref_id self) (_id self) (_uri self) s).

(** [Perspective.__init__] *)
Definition Perspective_init (perspective_id : string) : ST Σ Perspective :=
  if negb (bool_decide (perspective_id = "")) then
    get_schema
      (mkPerspective 100 (Some perspective_id)
         ("v1/perspective_schemas" +:+ "/" +:+ perspective_id)
         default_schema)
  else mret new_perspective.

(** [Perspective.update_cloudhealth] *)
Definition update_cloudhealth (self : Perspective)
    (schema : option (Schema loc)) : ST Σ Perspective :=
  let perspective_schema := default (_schema self) schema in
  if has_id self then
    http_put (_uri self)
      (set_constants
         (filter (λ constant, const_type constant ≠ "Dynamic Group")
                 (constants perspective_schema))
         perspective_schema) ;;
    get_schema self
  else raise (RuntimeError IdMustBeSet).

(** [PerspectiveClient.get] *)
Definition client_get (perspective_input : string) : ST Σ Perspective :=
  perspective_id ← _get_perspective_id perspective_input ;
  perspective ← Perspective_init (default "None" perspective_id) ;
  perspective ← get_schema perspective ;
  if bool_decide (name (_schema perspective) = VStr "Empty")
  then raise (RuntimeError DoesNotExist)
  else mret perspective.

(** [PerspectiveClient.update].  [schema] and [spec] default to [None];
    a schema or a spec that is given is a non-empty dictionary. *)
Definition update (perspective_input : string)
    (schema : option (Schema loc)) (spec : option (Spec loc))
  : ST Σ Perspective :=
  perspective ← client_get perspective_input ;
  let perspective_name := name (_schema perspective) in
  (if bool_decide (is_Some schema ∨ is_Some spec) then
     name ←
       match schema with
       | None => raise AttributeError        (* [None.get] *)
       | Some schema =>
           if truthy (name schema) then mret (name schema)
           else match spec with
                | Some spec => mret (spec_name spec)
                | None => raise TypeError    (* [None['name']] *)
                end
       end ;
     if bool_decide (perspective_name ≠ name)
     then raise (RuntimeError NameDoesNotMatch)
     else mret tt
   else mret tt) ;;
  perspective ← update_cloudhealth perspective schema ;
  mret perspective.
End PerspectiveClient.

(** *** A transport to run the client against *)

Inductive request :=
| GET (uri : string)
| PUT (uri : string) (body : Schema loc).

(** Modelled from the spec: the PerspectiveStore contract (fetch and
    replace by id); the HTTP client itself is not in the sources.  A
    fetch of an unknown perspective answers the service's empty
    perspective, named "Empty". *)
Record Remote := mkRemote {
  listing : list (string * value);
  stored : gmap string (Schema loc);
  requests : list request
}.

Definition empty_response : Schema loc :=
  mkSchema (VStr "Empty") (VList []) [] (VStr "true") [].

Definition remote_get (uri : string) : ST Remote (Schema loc) :=
  λ σ, (Ok (default empty_response (stored σ !! uri)),
        mkRemote (listing σ) (stored σ) (requests σ ++ [GET uri])).

Definition remote_put (uri : string) (body : Schema loc) : ST Remote unit :=
  λ σ, (Ok tt,
        mkRemote (listing σ) (<[uri := body]> (stored σ))
                 (requests σ ++ [PUT uri body])).

Definition remote_index : ST Remote (list (string * value)) :=
  λ σ, (Ok (listing σ),
        mkRemote (listing σ) (stored σ)
                 (requests σ ++ [GET "v1/perspective_schemas/"])).

(** A numeral: a non-empty string of decimal digits. *)
Definition is_digit (c : ascii) : bool :=
  let n := N_of_ascii c in ((48 <=? n) && (n <=? 57))%N.
Fixpoint digits_only (s : string) : bool :=
  match s with
  | EmptyString => true
  | String c s' => is_digit c && digits_only s'
  end.
Definition is_numeral (s : string) : bool :=
  negb (bool_decide (s = "")) && digits_only s.

(** ** A sequence of allocator calls *)

(** The allocator is called once for each schema of the list, on that
    schema: between two calls the schema may have changed in any way, the
    counter only by the calls themselves. *)
Fixpoint allocate_all (schemas : list (Schema loc)) : M (list value) :=
  match schemas with
  | [] => mret []
  | s :: schemas' =>
      modify (set_schema (λ _, s)) ;;
      ref_id ← _get_new_ref_id ;
      ref_ids ← allocate_all schemas' ;
      mret (ref_id :: ref_ids)
  end.

(** ** Vocabulary of the statements *)

(** The groups a rule can name: the items that are not "Other". *)
Definition registry {R} (s : Schema R) : list Item :=
  filter (λ item, not_is_other item = true) (group_items s).

(** How a spec rule names its group: under ['to'], or under ['ref_id']
    when ['to'] is there but not true; [None] is the [KeyError]. *)
Definition spec_group_name (r : dict) : option value :=
  match r !! "to" with
  | Some to => if truthy to then Some to else r !! "ref_id"
  | None => None
  end.

(** The kind of constant for a lower-cased rule type; [None] for a type
    that is not known. *)
Definition rule_constant_type (rule_type : string) : option string :=
  if bool_decide (rule_type ∈ ["filter"; "search"]) then Some "Static Group"
  else if bool_decide (rule_type = "categorize")
       then Some "Dynamic Group Block"
       else None.

(** The rule once its type and its reference have been rewritten. *)
Definition retarget (rule_type : string) (ref_id : value) (r : dict) : dict :=
  let r1 := if bool_decide (rule_type ∈ ["filter"; "search"])
            then <["type" := VStr "filter"]> r else r in
  if bool_decide (rule_type = "categorize")
  then delete "to" (<["ref_id" := ref_id]> (<["to" := ref_id]> r1))
  else <["to" := ref_id]> r1.

Definition is_dict (v : value) : bool :=
  match v with VDict _ => true | _ => false end.

Definition map_clause (f : dict → dict) (v : value) : value :=
  match v with VDict clause => VDict (f clause) | _ => v end.

(** The rule once [f] has been applied to the clauses of its condition. *)
Definition map_condition (f : dict → dict) (r : dict) : dict :=
  match dict_get r "condition" with
  | VDict d =>
      match d !! "clauses" with
      | Some (VList clauses) =>
          <["condition" :=
              VDict (<["clauses" := VList (map_clause f <$> clauses)]> d)]> r
      | _ => r
      end
  | _ => r
  end.

(** The conditions the loop over the clauses can go through: none (or
    one that is not true), or a dictionary whose ['clauses'] is a list of
    dictionaries, or has nothing to iterate over. *)
Definition clauses_ok (v : value) : bool :=
  match v with
  | VList clauses => forallb is_dict clauses
  | VStr s => bool_decide (s = "")
  | VDict d => bool_decide (d = ∅)
  | _ => false
  end.

Definition condition_ok (r : dict) : bool :=
  let condition := dict_get r "condition" in
  negb (truthy condition)
  || match condition with
     | VDict d =>
         match d !! "clauses" with Some v => clauses_ok v | None => false end
     | _ => false
     end.

(** The clauses of the rule's condition, when there is a list of them. *)
Definition clauses_of (r : dict) : list value :=
  match dict_get r "condition" with
  | VDict d =>
      match d !! "clauses" with Some (VList clauses) => clauses | _ => [] end
  | _ => []
  end.

(** All the clauses that are dictionaries pass the test. *)
Definition clauses_all (ok : dict → bool) (r : dict) : bool :=
  forallb (λ v, match v with VDict clause => ok clause | _ => true end)
          (clauses_of r).

(** The rule as [_spec_rule_to_schema] leaves it. *)
Definition schema_form (rule_type : string) (ref_id : value) (r : dict)
  : dict :=
  map_condition wrap_items (wrap_items (retarget rule_type ref_id r)).

(** A body that either rewrites a clause or raises [e0]. *)
Definition guarded (ok : dict → bool) (f : dict → dict) (e0 : exn)
  : dict → exn + dict :=
  λ d, if ok d then inr (f d) else inl e0.

(** The world a translated rule leaves behind. *)
Definition after_rule (rule : loc) (r' : dict) (cs : list Constant) (n : N)
    (w : World) : World :=
  set_schema (λ s, set_rules (rules s ++ [rule]) (set_constants cs s))
    (set_new_ref_id n (set_heap <[rule := r']> w)).

(** What a schema rule refers to: what is under ['ref_id'] when that is
    true, else what is under ['to']; [None] is the [KeyError]. *)
Definition schema_reference (r : dict) : option value :=
  if truthy (dict_get r "ref_id") then Some (dict_get r "ref_id")
  else r !! "to".

(** The rule once its reference has been moved to ['to'] and replaced. *)
Definition renamed (group : value) (r : dict) : dict :=
  <["to" := group]>
    (if truthy (dict_get r "ref_id") then delete "ref_id" r else r).

(** The rule as the loop of [_spec_from_schema] leaves it. *)
Definition spec_form (group : value) (r : dict) : dict :=
  map_condition unwrap_dict (unwrap_dict (renamed group r)).

(** No list under ['field'] or ['tag_field'] that has not one item: in
    the rule itself, and in the clauses of its condition. *)
Definition fields_ok (d : dict) : bool :=
  forallb (λ key, match d !! key with
                  | Some (VList l) => bool_decide (length l = 1)
                  | _ => true
                  end)
          _single_item_list_keys.

Definition rule_fields_ok (r : dict) : bool :=
  fields_ok r && clauses_all fields_ok r.

(** What [_add_constant] has done to the registry when it answers
    [ref_id] for the name [group]: the groups of before are still there,
    one of them has the name and the ref_id, ref_ids that identified the
    groups still do, and the ref_id is true. *)
Definition registers (s s' : Schema loc) (ref_id group : value) : Prop :=
  (∀ item, item ∈ registry s → item ∈ registry s')
  ∧ (∃ item, item ∈ registry s'
             ∧ item_ref_id item = ref_id ∧ item_name item = group)
  ∧ (NoDup (item_ref_id <$> registry s) → NoDup (item_ref_id <$> registry s'))
  ∧ truthy ref_id = true.

(** The rule object at [l] has been translated between [w] and [w']: it
    had a group name, a known type and a passable condition, it is now
    its schema form for a true ref_id, and the registry has a group with
    that ref_id and the name. *)
Definition translated (w w' : World) (l : loc) : Prop :=
  ∃ (ty : string) (group ref_id : value),
    obj w l !! "type" = Some (VStr ty)
    ∧ is_Some (rule_constant_type (lower ty))
    ∧ spec_group_name (obj w l) = Some group
    ∧ condition_ok (obj w l) = true
    ∧ obj w' l = schema_form (lower ty) ref_id (obj w l)
    ∧ truthy ref_id = true
    ∧ ∃ item, item ∈ registry (schema w')
              ∧ item_ref_id item = ref_id ∧ item_name item = group.

(** A field of a spec rule that is a bare string. *)
Definition has_scalar_field (d : dict) : Prop :=
  ∃ key s, key ∈ _single_item_list_keys ∧ d !! key = Some (VStr s).

(** [r'] is what the translator has made of the spec rule [r], for the
    registry of [s]: its reference is the ref_id of the group [r] named
    (under ['to'], with type "filter", for a filter or search rule; under
    ['ref_id'], with ['to'] gone, for a categorize rule), and the strings
    under ['field'] and ['tag_field'] are one-item lists, in the rule and
    in the clauses of its condition. *)
Definition rewritten_for (s : Schema loc) (r r' : dict) : Prop :=
  ∃ (ty : string) (group ref_id : value),
    r !! "type" = Some (VStr ty)
    ∧ spec_group_name r = Some group
    ∧ (∃ item, item ∈ registry s
               ∧ item_ref_id item = ref_id ∧ item_name item = group)
    ∧ (if bool_decide (lower ty = "categorize")
       then r' !! "type" = Some (VStr ty)
            ∧ r' !! "ref_id" = Some ref_id ∧ r' !! "to" = None
       else r' !! "type" = Some (VStr "filter") ∧ r' !! "to" = Some ref_id)
    ∧ (∀ key, key ∈ _single_item_list_keys →
              r' !! key = to_single_item_list key <$> r !! key)
    ∧ clauses_of r' = map_clause wrap_items <$> clauses_of r
    ∧ (r' = r →
       lower ty ≠ "categorize" ∧ r !! "to" = Some ref_id
       ∧ ¬ has_scalar_field r).

(** The world the loop over the rules of a spec starts from. *)
Definition before_rules (spec : Spec loc) (w : World) : World :=
  let flag := default VNone (spec_include_in_reports spec) in
  set_schema
    (λ s, set_rules []
            ((if truthy flag then set_include_in_reports flag else id)
               (set_name (spec_name spec) s)))
    w.

(** A schema rule the loop of [_spec_from_schema] can read: it has a
    reference, and a condition the loop over the clauses can go through. *)
Definition rule_shaped (r : dict) : bool :=
  bool_decide (is_Some (schema_reference r)) && condition_ok r.

(** The spec rule derived from a schema rule, for the constants of [s]. *)
Definition derived_rule {R} (s : Schema R) (r : dict) : dict :=
  match schema_reference r with
  | Some ref => spec_form (_get_name_by_ref_id ref s) r
  | None => r
  end.

(** [d'] is [d] with the one-item lists under ['field'] and ['tag_field']
    replaced by their item. *)
Definition unwrapped (d d' : dict) : Prop :=
  ∀ key x, key ∈ _single_item_list_keys →
           d !! key = Some (VList [x]) → d' !! key = Some x.

Definition unwrapped_clause (v v' : value) : Prop :=
  match v with
  | VDict d => ∃ d', v' = VDict d' ∧ unwrapped d d'
  | _ => v' = v
  end.

(** The reference of a schema rule resolves to no group that is not
    "Other". *)
Definition unresolved (s : Schema loc) (r : dict) : Prop :=
  ∃ ref, schema_reference r = Some ref
         ∧ ∀ item, item ∈ registry s → item_ref_id item ≠ ref.

(** What the round trip compares a rule by: its type, its group (under
    ['to'] in a spec), its field (either key) and its condition. *)
Definition rule_tuple (r : dict)
  : option value * option value * option value * option value * option value :=
  (r !! "type", r !! "to", r !! "field", r !! "tag_field", r !! "condition").

(** The round trip, for one spec and one world: if the spec is applied
    without error, the spec derived from the schema it leaves has the
    rules of the spec as it was, as sets of tuples. *)
Definition round_trip (spec : Spec loc) (w : World) : Prop :=
  ∀ w1 : World,
    _schema_from_spec spec w = (Ok tt, w1) →
    ∃ spec' : Spec dict,
      _spec_from_schema w1 = Ok spec'
      ∧ ∀ t, t ∈ rule_tuple <$> spec_rules spec'
             ↔ t ∈ (λ l, rule_tuple (obj w l)) <$> spec_rules spec.

(** The same, rule by rule: the tuples of the rules of the derived spec
    are those of the rules of the spec as it was, in their order. *)
Definition round_trip_in_order (spec : Spec loc) (w : World) : Prop :=
  ∀ w1 : World,
    _schema_from_spec spec w = (Ok tt, w1) →
    ∃ spec' : Spec dict,
      _spec_from_schema w1 = Ok spec'
      ∧ rule_tuple <$> spec_rules spec'
        = (λ l, rule_tuple (obj w l)) <$> spec_rules spec.

(** No list under ['field'] or ['tag_field']. *)
Definition fields_scalar (d : dict) : bool :=
  forallb (λ key, match d !! key with
                  | Some (VList _) => false
                  | _ => true
                  end)
          _single_item_list_keys.

(** A rule in the form the spec file documents: the group's name under
    ['to']; the type "filter" (and then no true ['ref_id']) or, in any
    case of letters, "categorize"; bare values, not lists, under
    ['field'] and ['tag_field'], in the rule and in its clauses. *)
Definition canonical_spec_rule (r : dict) : Prop :=
  (∃ to, r !! "to" = Some to ∧ truthy to = true)
  ∧ (∃ ty, r !! "type" = Some (VStr ty)
           ∧ (ty = "filter" ∧ truthy (dict_get r "ref_id") = false
              ∨ lower ty = "categorize"))
  ∧ fields_scalar r = true
  ∧ clauses_all fields_scalar r = true.

(** What [map_condition] does to the value under ['condition']. *)
Definition map_condition_value (f : dict → dict) (v : value) : value :=
  match v with
  | VDict d =>
      match d !! "clauses" with
      | Some (VList clauses) =>
          VDict (<["clauses" := VList (map_clause f <$> clauses)]> d)
      | _ => v
      end
  | _ => v
  end.

(** What "idempotent ensure" says of one world, name and kind: two calls
    in a row answer the same, and the second leaves the constants alone. *)
Definition ensure_idempotent (w : World) (constant_name : value)
    (constant_type : string) : Prop :=
  ∀ r1 w1 r2 w2,
    _add_constant constant_name constant_type w = (r1, w1) →
    _add_constant constant_name constant_type w1 = (r2, w2) →
    r1 = r2 ∧ constants (schema w2) = constants (schema w1).

(** ** Vocabulary of the further properties *)

(** A constant that has kept its type and its items, with more items
    after them perhaps. *)
Definition grown_constant (c c' : Constant) : Prop :=
  const_type c' = const_type c ∧ const_list c `prefix_of` const_list c'.

(** The constants [cs'] are those of [cs], in their order and each grown
    at most, with new constants after them perhaps. *)
Definition extends_constants (cs cs' : list Constant) : Prop :=
  ∃ cs1 cs2, cs' = cs1 ++ cs2 ∧ Forall2 grown_constant cs cs1.

(** What a run of the translator may have done between [w] and [w'],
    whether it returned or raised, when [ls] are the rule objects it was
    given: nothing to ['merges'], the id or the uri; the counter has not
    gone down; the constants have only been extended; ref_ids that were
    unique still are; no other object of the heap has been touched. *)
Definition evolves (ls : list loc) (w w' : World) : Prop :=
  merges (schema w') = merges (schema w)
  ∧ _id (self w') = _id (self w)
  ∧ _uri (self w') = _uri (self w)
  ∧ (_new_ref_id (self w) ≤ _new_ref_id (self w'))%N
  ∧ extends_constants (constants (schema w)) (constants (schema w'))
  ∧ (NoDup (existing_ref_ids (schema w)) →
     NoDup (existing_ref_ids (schema w')))
  ∧ (∀ l, l ∉ ls → heap w' !! l = heap w !! l).

(** [m] relates the world it starts in to the world it leaves by [P],
    whatever its outcome. *)
Definition preserves {A} (P : World → World → Prop) (m : M A) : Prop :=
  ∀ w, P w (m w).2.

(** ** [PerspectiveClient], further *)

Section PerspectiveClientExists.
Context {Σ : Type}.
Variable http_get_index : ST Σ (list (string * value)).

(** [PerspectiveClient.check_exists], called with [active=None] as its
    callers do: the loop returns [True] at the first perspective of the
    index with the name, [False] when it ends. *)
Definition check_exists (name : value) : ST Σ bool :=
  perspectives ← index http_get_index ;
  mret (existsb (λ p : string * value, bool_decide (p.2 = name))
                perspectives).
End PerspectiveClientExists.

(** ** Inputs of the scenarios *)

(** A perspective just made, with no rule object around yet. *)
Definition fresh_world : World := mkWorld ∅ new_perspective.

(** Scenario A: the spec [{name: "Env", rules: [{type: filter, field:
    "env", to: "prod"}]}], its one rule at location 0. *)
Definition scenario_A_rule : dict :=
  <["type" := VStr "filter"]>
    (<["field" := VStr "env"]> (<["to" := VStr "prod"]> ∅)).
Definition scenario_A_world : World :=
  mkWorld {[0 := scenario_A_rule]} new_perspective.
Definition scenario_A_spec : Spec loc := mkSpec (VStr "Env") None [0].

Definition scenario_A_result : World :=
  (_schema_from_spec scenario_A_spec scenario_A_world).2.

(** A spec that switches the reports off. *)
Definition no_reports_spec : Spec loc :=
  mkSpec (VStr "Env") (Some (VBool false)) [].

(** A legacy categorize rule: the group is named under ['ref_id'] and
    there is no ['to']. *)
Definition legacy_rule : dict :=
  <["type" := VStr "categorize"]>
    (<["field" := VStr "team"]> (<["ref_id" := VStr "Platform"]> ∅)).
Definition legacy_world : World :=
  mkWorld {[0 := legacy_rule]} new_perspective.

(** Scenario E: the service holds perspective 42, named "Other"; the
    update comes with a spec named "Env". *)
Definition scenario_E_remote : Remote :=
  mkRemote [("42", VStr "Other")]
    {["v1/perspective_schemas/42" :=
        mkSchema (VStr "Other") (VList [])
          [mkConstant "Static Group"
             [mkItem (VStr "1234567890") (VStr "Other") (Some (VStr "true"))]]
          (VStr "true") []]}
    [].
Definition scenario_E_spec : Spec loc := mkSpec (VStr "Env") None [].

(** A rule whose group is named "101", the first ref_id a new
    perspective allocates; its field is a list already. *)
Definition cost_center_rule : dict :=
  <["type" := VStr "filter"]>
    (<["field" := VList [VStr "cost_center"]]> (<["to" := VStr "101"]> ∅)).
Definition cost_center_world : World :=
  mkWorld {[0 := cost_center_rule]} new_perspective.
Definition cost_center_spec : Spec loc := mkSpec (VStr "Env") None [0].

(** Scenario D: a schema with the group "prod" and a filter rule whose
    ['field'] list has two items. *)
Definition prod_constants : list Constant :=
  [mkConstant "Static Group"
     [mkItem (VStr "1234567890") (VStr "Other") (Some (VStr "true"));
      mkItem (VStr "101") (VStr "prod") None]].
Definition scenario_D_rule : dict :=
  <["type" := VStr "filter"]>
    (<["field" := VList [VStr "env"; VStr "team"]]>
       (<["to" := VStr "101"]> ∅)).
Definition scenario_D_world : World :=
  mkWorld {[0 := scenario_D_rule]}
    (mkPerspective 100 (Some "42") "v1/perspective_schemas/42"
       (mkSchema (VStr "Env") (VList []) prod_constants (VStr "true") [0])).

(** A schema whose one rule refers to "999", which is no group of it. *)
Definition dangling_rule : dict :=
  <["type" := VStr "filter"]>
    (<["field" := VList [VStr "env"]]> (<["to" := VStr "999"]> ∅)).
Definition dangling_world : World :=
  mkWorld {[0 := dangling_rule]}
    (mkPerspective 100 (Some "42") "v1/perspective_schemas/42"
       (mkSchema (VStr "Env") (VList []) prod_constants (VStr "true") [0])).

(** A spec that says "search" where the schema says "filter". *)
Definition search_rule : dict :=
  <["type" := VStr "search"]>
    (<["field" := VStr "env"]> (<["to" := VStr "prod"]> ∅)).
Definition search_world : World :=
  mkWorld {[0 := search_rule]} new_perspective.
Definition search_spec : Spec loc := mkSpec (VStr "Env") None [0].

Definition search_result : World :=
  (_schema_from_spec search_spec search_world).2.

(** * Properties *)

(** ** The allocator *)

Lemma str_inj n m : str n = str m → n = m.
Proof. apply (inj pretty). Qed.

Lemma set_new_ref_id_idem n m w :
  set_new_ref_id n (set_new_ref_id m w) = set_new_ref_id n w.
Proof. reflexivity. Qed.

(** The loop answers as soon as a candidate is free; [E] stands for the
    ref_ids that can still be in the way. *)
Lemma _get_new_ref_id_loop_returns fuel :
  ∀ (w : World) (E : list value),
    (∀ n, (_new_ref_id (self w) < n)%N →
          VStr (str n) ∈ existing_ref_ids (schema w) → VStr (str n) ∈ E) →
    length E < fuel →
    ∃ n, _get_new_ref_id_loop fuel w = (Ok (VStr (str n)), set_new_ref_id n w)
         ∧ (_new_ref_id (self w) < n)%N
         ∧ VStr (str n) ∉ existing_ref_ids (schema w).
Proof.
  induction fuel as [|fuel IH]; intros w E HE Hlen; [lia|].
  cbn [_get_new_ref_id_loop].
  unfold mbind, ST_bind, bind, modify, get_world. cbn [fst snd].
  set (c := (_new_ref_id (self w) + 1)%N).
  change (schema (set_new_ref_id c w)) with (schema w).
  change (_new_ref_id (self (set_new_ref_id c w))) with c.
  case_bool_decide as Hin.
  - exists c. split; [reflexivity|]. split; [lia|done].
  - assert (Hc : VStr (str c) ∈ E) by (apply HE; [lia|done]).
    destruct (IH (set_new_ref_id c w)
                 (filter (λ v, v ≠ VStr (str c)) E)) as (n & Hrun & Hlt & Hfree).
    + intros n Hn Hn'. apply list_elem_of_filter. split.
      * intros [= Heq%str_inj]. cbn in Hn. lia.
      * apply HE; [cbn in Hn; lia|done].
    + assert (length (filter (λ v, v ≠ VStr (str c)) E) < length E);
        [|lia].
      apply (length_filter_lt _ _ (VStr (str c))); [done|tauto].
    + exists n. rewrite Hrun. split; [reflexivity|].
      cbn in Hlt. split; [lia|done].
Qed.

Lemma _get_new_ref_id_returns (w : World) :
  ∃ n, _get_new_ref_id w = (Ok (VStr (str n)), set_new_ref_id n w)
       ∧ (_new_ref_id (self w) < n)%N
       ∧ VStr (str n) ∉ existing_ref_ids (schema w).
Proof.
  unfold _get_new_ref_id, mbind, ST_bind, bind, get_world.
  apply (_get_new_ref_id_loop_returns _ w (existing_ref_ids (schema w)));
    [auto|lia].
Qed.

(** More fuel than the loop needs does not change its answer. *)
Lemma _get_new_ref_id_loop_enough (fuel : nat) (w : World) :
  length (existing_ref_ids (schema w)) < fuel →
  _get_new_ref_id_loop fuel w = _get_new_ref_id w.
Proof.
  intros Hfuel.
  assert (Hmono : ∀ (f1 f2 : nat) w1 r w2,
            f1 ≤ f2 → _get_new_ref_id_loop f1 w1 = (Ok r, w2) →
            _get_new_ref_id_loop f2 w1 = (Ok r, w2)).
  { induction f1 as [|f1 IH]; intros f2 w1 r w2 Hle; [discriminate|].
    destruct f2 as [|f2]; [lia|].
    cbn [_get_new_ref_id_loop].
    unfold mbind, ST_bind, bind, modify, get_world.
    case_bool_decide; [done|]. apply IH. lia. }
  destruct (_get_new_ref_id_returns w) as (n & Hn & _).
  rewrite Hn. unfold _get_new_ref_id, mbind, ST_bind, bind, get_world in Hn.
  eapply Hmono; [|exact Hn]. lia.
Qed.

(** What the list the loop builds holds: the ref_ids of the items of the
    constants of the two types, and nothing else. *)
Lemma elem_of_existing_ref_ids {R} (s : Schema R) (v : value) :
  v ∈ existing_ref_ids s
  ↔ ∃ constant item,
      constant ∈ constants s
      ∧ (const_type constant = "Static Group"
         ∨ const_type constant = "Dynamic Group Block")
      ∧ item ∈ const_list constant
      ∧ item_ref_id item = v.
Proof.
  unfold existing_ref_ids. rewrite list_elem_of_In, in_flat_map. split.
  - intros (constant & Hc%list_elem_of_In & Hv%list_elem_of_In).
    case_bool_decide as Hty; [|by apply elem_of_nil in Hv].
    apply list_elem_of_fmap in Hv as (item & -> & Hitem).
    exists constant, item. split; [done|]. split; [|done].
    unfold constant_types in Hty.
    apply elem_of_cons in Hty as [Hty|Hty%list_elem_of_singleton]; auto.
  - intros (constant & item & Hc & Hty & Hitem & <-).
    exists constant. split; [by apply list_elem_of_In|].
    apply list_elem_of_In. rewrite bool_decide_eq_true_2.
    + apply list_elem_of_fmap. eauto.
    + unfold constant_types.
      destruct Hty as [->| ->];
        [apply list_elem_of_here
        |apply list_elem_of_further, list_elem_of_here].
Qed.

(** C2 (allocator uniqueness).  Whatever the counter and whatever the
    schemas the calls of a sequence find, every call returns (it never
    runs out of fuel, nor raises), what it returns is the decimal numeral
    of a number above the counter the sequence started from, no item of
    a constant of type 'Static Group' or 'Dynamic Group Block' of the
    schema it was called on has it for ref_id, and no two calls of the
    sequence return the same id. *)
Theorem allocator_uniqueness (w : World) (schemas : list (Schema loc)) :
  ∃ (ns : list N) (w' : World),
    allocate_all schemas w = (Ok ((λ n, VStr (str n)) <$> ns), w')
    ∧ Forall (λ n, (_new_ref_id (self w) < n)%N) ns
    ∧ Forall2 (λ s n,
         ∀ constant item,
           constant ∈ constants s →
           const_type constant = "Static Group"
           ∨ const_type constant = "Dynamic Group Block" →
           item ∈ const_list constant →
           item_ref_id item ≠ VStr (str n)) schemas ns
    ∧ NoDup ((λ n, VStr (str n)) <$> ns).
Proof.
  revert w. induction schemas as [|s schemas IH]; intros w.
  - exists [], w. repeat split; constructor.
  - cbn [allocate_all]. unfold mbind, ST_bind, bind, modify.
    set (w1 := set_schema (λ _, s) w).
    destruct (_get_new_ref_id_returns w1) as (n & -> & Hn & Hfree).
    destruct (IH (set_new_ref_id n w1)) as (ns & w' & -> & Hns & Hfrees & Hnd).
    exists (n :: ns), w'. cbn in Hns, Hn |- *.
    split; [reflexivity|]. split; [|split].
    + constructor; [done|]. eapply Forall_impl; [exact Hns|]. cbn. lia.
    + constructor; [|done].
      intros constant item Hc Hty Hitem Heq. apply Hfree.
      apply elem_of_existing_ref_ids. exists constant, item. auto.
    + constructor; [|done].
      intros (m & [= Hm%str_inj] & Hin)%list_elem_of_fmap. subst m.
      rewrite Forall_forall in Hns. specialize (Hns _ Hin). lia.
Qed.

(** ** The registry of constants *)


Lemma existing_ref_ids_items {R} (s : Schema R) :
  existing_ref_ids s = item_ref_id <$> group_items s.
Proof.
  unfold existing_ref_ids, group_items, group_constants.
  induction (constants s) as [|c cs IH]; [done|].
  cbn [flat_map]. rewrite filter_cons.
  case_bool_decide; case_decide; try done.
  cbn [flat_map]. by rewrite fmap_app, IH.
Qed.

Lemma pretty_N_go_nonempty x s : s ≠ "" → pretty_N_go x s ≠ "".
Proof.
  revert s. induction (N.lt_wf_0 x) as [x _ IH]; intros s Hs.
  destruct (decide (x = 0%N)) as [->|Hx]; [by rewrite pretty_N_go_0|].
  rewrite pretty_N_go_step by lia. apply IH; [|done].
  apply N.div_lt; lia.
Qed.

Lemma str_truthy n : truthy (VStr (str n)) = true.
Proof.
  cbn. case_bool_decide as H; [|done]. exfalso.
  unfold str, pretty, pretty_N in H. case_decide; [done|].
  rewrite pretty_N_go_step in H by lia.
  by apply pretty_N_go_nonempty in H.
Qed.

(** The items of a schema whose constants are split around one of them. *)
Lemma group_items_app {R} (s : Schema R) l1 c l2 :
  constants s = l1 ++ c :: l2 →
  const_type c ∈ constant_types →
  group_items s =
    flat_map const_list (filter (λ c, const_type c ∈ constant_types) l1)
    ++ const_list c
    ++ flat_map const_list (filter (λ c, const_type c ∈ constant_types) l2).
Proof.
  intros Hs Hc. unfold group_items, group_constants. rewrite Hs.
  rewrite filter_app, filter_cons_True by done.
  by rewrite flat_map_app.
Qed.

Lemma group_items_other {R} (s : Schema R) l1 c l2 :
  constants s = l1 ++ c :: l2 →
  const_type c ∉ constant_types →
  group_items s =
    flat_map const_list (filter (λ c, const_type c ∈ constant_types) l1)
    ++ flat_map const_list (filter (λ c, const_type c ∈ constant_types) l2).
Proof.
  intros Hs Hc. unfold group_items, group_constants. rewrite Hs.
  rewrite filter_app, filter_cons_False by done.
  by rewrite flat_map_app.
Qed.

(** [_add_constant] when the name is registered with a true ref_id. *)
Lemma _add_constant_found constant_name constant_type (w : World) :
  truthy (_get_ref_id_by_name constant_name (schema w)) = true →
  _add_constant constant_name constant_type w
  = (Ok (_get_ref_id_by_name constant_name (schema w)), w).
Proof.
  intros H. unfold _add_constant, mbind, ST_bind, bind, get_world.
  by rewrite H.
Qed.

(** [_add_constant] otherwise: the constants are those of before, with an
    empty constant of the type appended if there was none, and the new
    group goes to the end of the first constant of the type. *)
Lemma _add_constant_new constant_name constant_type (w : World) :
  truthy (_get_ref_id_by_name constant_name (schema w)) = false →
  ∃ (n : N) (l1 l2 : list Constant) (c : Constant),
    (constants (schema w) = l1 ++ c :: l2
     ∨ (constants (schema w) = l1 ∧ c = mkConstant constant_type []
        ∧ l2 = []))
    ∧ const_type c = constant_type
    ∧ Forall (λ c', const_type c' ≠ constant_type) l1
    ∧ (_new_ref_id (self w) < n)%N
    ∧ (VStr (str n) ∉ existing_ref_ids (schema w))
    ∧ _add_constant constant_name constant_type w
      = (Ok (VStr (str n)),
         set_schema
           (set_constants
              (l1 ++ (list_append (mkItem (VStr (str n)) constant_name None) c
                      :: l2)))
           (set_new_ref_id n w)).
Proof.
  intros H. unfold _add_constant, mbind, ST_bind, bind, get_world.
  rewrite H.
  destruct (list_find _ (constants (schema w))) as [[i c]|] eqn:Hfind.
  - apply list_find_Some in Hfind as (Hi & Hc & Hbefore).
    apply list_elem_of_split_length in Hi as (l1 & l2 & Hs & ->).
    unfold mret, ST_ret, ret.
    destruct (_get_new_ref_id_returns w) as (n & -> & Hn & Hfree).
    exists n, l1, l2, c. split; [by left|]. split; [done|]. split.
    { apply Forall_lookup. intros j c' Hj.
      apply (Hbefore j c'); [|by eapply lookup_lt_Some].
      rewrite Hs. by apply lookup_app_l_Some. }
    split; [done|]. split; [done|].
    unfold modify. f_equal. unfold set_schema, set_constants. cbn.
    change (_schema (self w)) with (schema w). rewrite Hs.
    by rewrite alter_app_r_alt, Nat.sub_diag by lia.
  - apply list_find_None in Hfind.
    unfold mret, ST_ret, ret, modify.
    set (w1 := set_schema _ w).
    destruct (_get_new_ref_id_returns w1) as (n & -> & Hn & Hfree).
    exists n, (constants (schema w)), [], (mkConstant constant_type []).
    split; [by right|]. split; [done|]. split; [done|]. split; [done|].
    split.
    { intros Hin. apply Hfree. unfold existing_ref_ids, w1 in *. cbn.
      change (_schema (self w)) with (schema w).
      rewrite flat_map_app. cbn. rewrite app_nil_r.
      case_bool_decide; cbn; by rewrite app_nil_r. }
    f_equal. unfold w1, set_schema, set_constants. cbn.
    change (_schema (self w)) with (schema w).
    by rewrite alter_app_r_alt, Nat.sub_diag by lia.
Qed.

(** What [_add_constant] does to the items, for a type the lookups scan:
    a new group is slipped in, everything else stays where it is. *)
Lemma _add_constant_new_items constant_name constant_type (w : World) :
  constant_type ∈ constant_types →
  truthy (_get_ref_id_by_name constant_name (schema w)) = false →
  ∃ (n : N) (cs : list Constant) (A B : list Item),
    _add_constant constant_name constant_type w
    = (Ok (VStr (str n)), set_schema (set_constants cs) (set_new_ref_id n w))
    ∧ (_new_ref_id (self w) < n)%N
    ∧ (VStr (str n) ∉ existing_ref_ids (schema w))
    ∧ group_items (schema w) = A ++ B
    ∧ group_items (set_constants cs (schema w))
      = A ++ mkItem (VStr (str n)) constant_name None :: B.
Proof.
  intros Hty Hnew.
  destruct (_add_constant_new constant_name constant_type w Hnew)
    as (n & l1 & l2 & c & Hcs & Hc & _ & Hn & Hfree & Hrun).
  set (new := mkItem (VStr (str n)) constant_name None) in *.
  set (F := λ l, flat_map const_list
                   (filter (λ c, const_type c ∈ constant_types) l)).
  assert (Hc' : const_type (list_append new c) ∈ constant_types)
    by (cbn; by rewrite Hc).
  exists n, (l1 ++ (list_append new c :: l2)).
  rewrite <-Hc in Hty.
  destruct Hcs as [Hcs|(Hcs & Hcnew & ->)].
  - exists (F l1 ++ const_list c), (F l2).
    split; [done|]. split; [done|]. split; [done|]. split.
    + rewrite (group_items_app _ l1 c l2) by done. by rewrite <-(assoc_L (++)).
    + rewrite (group_items_app _ l1 (list_append new c) l2) by done.
      cbn. by rewrite <-!(assoc_L (++)).
  - exists (F l1), []. split; [done|]. split; [done|]. split; [done|]. split.
    + rewrite app_nil_r. unfold group_items, group_constants. by rewrite Hcs.
    + rewrite (group_items_app _ l1 (list_append new c) []) by done.
      rewrite Hcnew. cbn. done.
Qed.

Lemma registry_elem_of {R} (s : Schema R) item :
  item ∈ registry s ↔ item ∈ group_items s ∧ not_is_other item = true.
Proof. unfold registry. rewrite list_elem_of_filter. tauto. Qed.

(** A lookup by name that finds a true ref_id found it in the registry. *)
Lemma _get_ref_id_by_name_found {R} constant_name (s : Schema R) :
  truthy (_get_ref_id_by_name constant_name s) = true →
  ∃ item, item ∈ registry s
          ∧ item_ref_id item = _get_ref_id_by_name constant_name s
          ∧ item_name item = constant_name.
Proof.
  unfold _get_ref_id_by_name.
  destruct (List.find _ _) as [item|] eqn:Hfind; [|done]. intros _.
  apply find_some in Hfind as [Hin [Hname Hother]%andb_prop].
  exists item. rewrite registry_elem_of, <-list_elem_of_In in *.
  by apply bool_decide_eq_true in Hname.
Qed.

(** With ref_ids that identify the groups, a lookup by ref_id finds the
    one group that has it. *)
Lemma _get_name_by_ref_id_registry {R} (s : Schema R) item :
  NoDup (item_ref_id <$> registry s) →
  item ∈ registry s →
  _get_name_by_ref_id (item_ref_id item) s = item_name item.
Proof.
  intros Hnd Hin. unfold _get_name_by_ref_id.
  destruct (List.find _ _) as [item'|] eqn:Hfind.
  - apply find_some in Hfind as [Hin' [Href Hother]%andb_prop].
    apply bool_decide_eq_true in Href. apply list_elem_of_In in Hin'.
    assert (Hin'' : item' ∈ registry s) by by apply registry_elem_of.
    f_equal.
    apply list_elem_of_lookup in Hin as [i Hi].
    apply list_elem_of_lookup in Hin'' as [j Hj].
    assert (i = j) as ->.
    { eapply NoDup_lookup; [exact Hnd| |];
        rewrite list_lookup_fmap; [by rewrite Hi|by rewrite Hj, <-Href]. }
    congruence.
  - apply registry_elem_of in Hin as [Hin Hother].
    eapply find_none in Hfind; [|by apply list_elem_of_In].
    rewrite Hother, bool_decide_eq_true_2 in Hfind; done.
Qed.

(** The summary the translator relies on. *)
Lemma _add_constant_spec constant_name constant_type (w : World) :
  constant_type ∈ constant_types →
  ∃ (ref_id : value) (cs : list Constant) (n : N),
    _add_constant constant_name constant_type w
    = (Ok ref_id, set_schema (set_constants cs) (set_new_ref_id n w))
    ∧ registers (schema w) (set_constants cs (schema w)) ref_id constant_name.
Proof.
  intros Hty.
  destruct (truthy (_get_ref_id_by_name constant_name (schema w))) eqn:Hfound.
  - exists (_get_ref_id_by_name constant_name (schema w)),
           (constants (schema w)), (_new_ref_id (self w)).
    assert (Hs : set_constants (constants (schema w)) (schema w) = schema w)
      by by destruct (schema w).
    rewrite Hs. split; [|split; [done|split; [|done]]].
    + rewrite _add_constant_found by done. f_equal.
      destruct w as [h [c i u s]]. unfold set_schema, set_new_ref_id. cbn.
      by destruct s.
    + by apply _get_ref_id_by_name_found.
  - destruct (_add_constant_new_items constant_name constant_type w Hty Hfound)
      as (n & cs & A & B & Hrun & Hn & Hfree & HAB & HAB').
    exists (VStr (str n)), cs, n. split; [done|].
    set (new := mkItem (VStr (str n)) constant_name None) in *.
    assert (Hperm : registry (set_constants cs (schema w))
                    ≡ₚ new :: registry (schema w)).
    { unfold registry. rewrite HAB, HAB'.
      rewrite !filter_app, filter_cons_True by done.
      by rewrite <-Permutation_middle. }
    split; [|split; [|split; [|apply str_truthy]]].
    + intros item Hitem. rewrite Hperm. by right.
    + exists new. rewrite Hperm. split; [by left|done].
    + intros Hnd. rewrite Hperm. cbn. constructor; [|done].
      intros Hin. apply Hfree. rewrite existing_ref_ids_items.
      apply list_elem_of_fmap in Hin as (item & Heq & [Hin _]%registry_elem_of).
      apply list_elem_of_fmap. eauto.
Qed.

Lemma find_middle {A} (f : A → bool) (l1 l2 : list A) (x : A) :
  List.find f l1 = None → f x = true → List.find f (l1 ++ x :: l2) = Some x.
Proof.
  intros Hnone Hx. induction l1 as [|y l1 IH]; cbn in *; [by rewrite Hx|].
  destruct (f y); [done|auto].
Qed.

Lemma find_app_None {A} (f : A → bool) (l1 l2 : list A) :
  List.find f (l1 ++ l2) = None → List.find f l1 = None.
Proof.
  induction l1 as [|y l1 IH]; cbn; [done|]. destruct (f y); [done|auto].
Qed.

(** C3, as amended (idempotent ensure).  For one of the two kinds the
    lookups scan ('Static Group', 'Dynamic Group Block') and a schema in
    which the ref_id of every group that is not "Other" is true (a
    non-empty string, as ref_ids are), two calls of [_add_constant] with
    the same name and kind return the same ref_id, and the second call
    changes nothing at all: not the constants, nor the counter. *)
Theorem ensure_is_idempotent (w : World) (constant_name : value)
    (constant_type : string) :
  constant_type ∈ constant_types →
  Forall (λ item, truthy (item_ref_id item) = true) (registry (schema w)) →
  ∃ (ref_id : value) (w1 : World),
    _add_constant constant_name constant_type w = (Ok ref_id, w1)
    ∧ _add_constant constant_name constant_type w1 = (Ok ref_id, w1).
Proof.
  intros Hty Hids.
  destruct (truthy (_get_ref_id_by_name constant_name (schema w))) eqn:Hfound.
  { exists (_get_ref_id_by_name constant_name (schema w)), w.
    by rewrite _add_constant_found. }
  destruct (_add_constant_new_items constant_name constant_type w Hty Hfound)
    as (n & cs & A & B & Hrun & _ & _ & HAB & HAB').
  set (new := mkItem (VStr (str n)) constant_name None) in *.
  set (w1 := set_schema _ _) in *.
  exists (VStr (str n)), w1. split; [done|].
  assert (Hname : _get_ref_id_by_name constant_name (schema w1) = VStr (str n)).
  { unfold _get_ref_id_by_name in *.
    change (schema w1) with (set_constants cs (schema w)). rewrite HAB'.
    destruct (List.find _ (group_items (schema w))) as [item|] eqn:Hfind.
    - exfalso. apply find_some in Hfind as [Hin [_ Hother]%andb_prop].
      rewrite Forall_forall in Hids. rewrite (Hids item) in Hfound; [done|].
      apply registry_elem_of. by rewrite list_elem_of_In.
    - rewrite HAB in Hfind. apply find_app_None in Hfind.
      rewrite (find_middle _ A B new); [done|done|].
      cbn. by rewrite bool_decide_eq_true_2. }
  rewrite _add_constant_found; rewrite Hname; [done|apply str_truthy].
Qed.

Lemma ensure_is_idempotent_witness :
  ∃ (ref_id : value) (w1 : World),
    _add_constant (VStr "prod") "Static Group" fresh_world = (Ok ref_id, w1)
    ∧ _add_constant (VStr "prod") "Static Group" w1 = (Ok ref_id, w1).
Proof.
  apply ensure_is_idempotent.
  - apply list_elem_of_here.
  - vm_compute. constructor.
Defined.

(** C3, as stated, fails: with the kind 'Dynamic Group' (a kind of the
    schema the lookups do not scan) the second call does not find the
    group the first one made, allocates "102" after "101" and adds the
    group again. *)
Lemma ensure_not_idempotent_for_other_kinds :
  ¬ ensure_idempotent fresh_world (VStr "prod") "Dynamic Group".
Proof.
  intros H.
  destruct (_add_constant (VStr "prod") "Dynamic Group" fresh_world)
    as [r1 w1] eqn:H1.
  destruct (_add_constant (VStr "prod") "Dynamic Group" w1) as [r2 w2] eqn:H2.
  destruct (H r1 w1 r2 w2 H1 H2) as [Hr _].
  vm_compute in H1. injection H1 as <- <-.
  vm_compute in H2. injection H2 as <- <-.
  discriminate Hr.
Qed.

(** ** Scenarios *)

(** C5 (scenario A).  Applying the spec to the default schema of a new
    perspective returns, names the schema "Env", leaves a single 'Static
    Group' constant holding "Other" followed by the one new item
    [{ref_id: "101", name: "prod"}], and a rules list that is exactly
    [[{type: "filter", field: ["env"], to: "101"}]]. *)
Theorem scenario_A :
  ∃ w' : World,
    _schema_from_spec scenario_A_spec scenario_A_world = (Ok tt, w')
    ∧ name (schema w') = VStr "Env"
    ∧ constants (schema w')
      = [mkConstant "Static Group"
           [mkItem (VStr "1234567890") (VStr "Other") (Some (VStr "true"));
            mkItem (VStr "101") (VStr "prod") None]]
    ∧ obj w' <$> rules (schema w')
      = [<["type" := VStr "filter"]>
           (<["field" := VList [VStr "env"]]> (<["to" := VStr "101"]> ∅))].
Proof.
  eexists. split; [vm_compute; reflexivity|].
  repeat split; vm_compute; reflexivity.
Qed.

(** The setter of the [spec] property is [_schema_from_spec] written out
    a second time. *)
Lemma spec_setter_eq spec : spec_setter spec = _schema_from_spec spec.
Proof. reflexivity. Qed.

(** C7, at the failing input: a spec with [include_in_reports: false]
    leaves the flag of the schema at "true"; the test is on the truth of
    the value, not on the presence of the key. *)
Theorem include_in_reports_false_is_dropped :
  ∃ w' : World,
    _schema_from_spec no_reports_spec fresh_world = (Ok tt, w')
    ∧ include_in_reports (schema fresh_world) = VStr "true"
    ∧ include_in_reports (schema w') = VStr "true".
Proof. eexists. repeat split. Qed.

(** The key that is read first decides: without ['to'] the rule raises. *)
Lemma _spec_rule_to_schema_no_to (rule : loc) (w : World) :
  obj w rule !! "to" = None →
  _spec_rule_to_schema rule w = (Raise (KeyError "to"), w).
Proof.
  intros H. unfold _spec_rule_to_schema, mbind, ST_bind, bind, getitem.
  by rewrite H.
Qed.

(** C8, at the failing input: the legacy categorize rule, which has
    ['ref_id'] and no ['to'], is not translated; reading ['to'] raises
    [KeyError] and nothing has changed. *)
Theorem legacy_categorize_rule_raises :
  _spec_rule_to_schema 0 legacy_world = (Raise (KeyError "to"), legacy_world).
Proof. by apply _spec_rule_to_schema_no_to. Qed.

(** ** The client *)

Section UpdateWithSpec.
Context {Σ : Type}.
Variable http_get_index : ST Σ (list (string * value)).
Variable http_get : string → ST Σ (Schema loc).
Variable http_put : string → Schema loc → ST Σ unit.
Variable int_parses : string → bool.

(** An update with a spec and no schema gets as far as fetching the
    perspective and then raises [AttributeError], whatever the names:
    [schema.get] is called on [None]. *)
Lemma update_with_spec_only perspective_input (spec : Spec loc) (σ : Σ) :
  update http_get_index http_get http_put int_parses
         perspective_input None (Some spec) σ
  = match client_get http_get_index http_get int_parses perspective_input σ with
    | (Ok _, σ') => (Raise AttributeError, σ')
    | (Raise e, σ') => (Raise e, σ')
    | (Diverged, σ') => (Diverged, σ')
    end.
Proof.
  unfold update, mbind, ST_bind, bind.
  destruct (client_get _ _ _ _ σ) as [[p| |] σ']; [|done..].
  rewrite bool_decide_eq_true_2 by (right; eauto). done.
Qed.
End UpdateWithSpec.

(** C9, at the failing input (scenario E): the update with the spec
    named "Env" against the perspective named "Other" fetches the schema
    (twice) and raises [AttributeError], not the name mismatch; nothing
    has been put to the service. *)
Theorem update_with_spec_raises_attribute_error :
  update remote_index remote_get remote_put is_numeral
         "42" None (Some scenario_E_spec) scenario_E_remote
  = (Raise AttributeError,
     mkRemote (listing scenario_E_remote) (stored scenario_E_remote)
       [GET "v1/perspective_schemas/42"; GET "v1/perspective_schemas/42"]).
Proof. vm_compute. reflexivity. Qed.

(** ** The loop over the clauses *)

Lemma obj_lookup (w : World) (l : loc) (r : dict) :
  heap w !! l = Some r → obj w l = r.
Proof. intros H. unfold obj. by rewrite lookup_total_alt, H. Qed.

Lemma set_heap_id (w : World) (l : loc) (r : dict) :
  heap w !! l = Some r → set_heap <[l := r]> w = w.
Proof.
  intros H. destruct w as [h p]. unfold set_heap. cbn [heap self] in *.
  by rewrite insert_id.
Qed.

Lemma map_clauses_guarded ok f e0 (clauses : list value) :
  forallb is_dict clauses = true →
  if forallb (λ v, match v with VDict c => ok c | _ => true end) clauses
  then map_clauses (guarded ok f e0) clauses = (map_clause f <$> clauses, None)
  else ∃ done, map_clauses (guarded ok f e0) clauses = (done, Some e0).
Proof.
  induction clauses as [|v clauses IH]; [done|].
  cbn [forallb]. intros [Hv Hcs]%andb_prop. specialize (IH Hcs).
  destruct v as [| | | |c]; try done. cbn [map_clauses guarded].
  unfold guarded at 1 3. destruct (ok c); cbn [andb]; [|eauto].
  clear Hcs. revert IH. destruct (forallb _ clauses); intros IH.
  - by rewrite IH.
  - destruct IH as [done ->]. eauto.
Qed.

Lemma map_clauses_not_dicts body (clauses : list value) :
  forallb is_dict clauses = false →
  ∃ done e, map_clauses body clauses = (done, Some e).
Proof.
  induction clauses as [|v clauses IH]; [done|].
  cbn [forallb]. intros Hv.
  destruct v as [| | | |c]; cbn [map_clauses]; eauto.
  destruct (body c); [eauto|]. destruct (IH Hv) as (done & e & ->). eauto.
Qed.

Lemma for_clauses_guarded ok f e0 (rule : loc) (w : World) (r : dict) :
  heap w !! rule = Some r →
  condition_ok r = true →
  if clauses_all ok r
  then for_clauses rule (guarded ok f e0) w
       = (Ok tt, set_heap <[rule := map_condition f r]> w)
  else ∃ w', for_clauses rule (guarded ok f e0) w = (Raise e0, w').
Proof.
  intros Hr Hok.
  unfold for_clauses, mbind, ST_bind, bind, get.
  rewrite (obj_lookup w rule r Hr).
  unfold condition_ok in Hok. unfold clauses_all, clauses_of, map_condition.
  destruct (truthy (dict_get r "condition")) eqn:Htrue; cbn [negb orb] in Hok.
  - destruct (dict_get r "condition") as [| | | |d]; try done.
    cbn [subscript].
    destruct (d !! "clauses") as [v|]; [|done].
    destruct v as [| |s|clauses|d']; try done; cbn [clauses_ok] in Hok.
    + rewrite Hok. cbn [forallb]. unfold mret, ST_ret, ret.
      by rewrite set_heap_id.
    + pose proof (map_clauses_guarded ok f e0 clauses Hok) as Hrun.
      clear Hok. revert Hrun. destruct (forallb _ clauses); intros Hrun.
      * rewrite Hrun. unfold setitem, modify, mret, ST_ret, ret.
        by rewrite (obj_lookup w rule r Hr).
      * destruct Hrun as [done ->]. unfold setitem, modify, raise. eauto.
    + rewrite Hok. cbn [forallb]. unfold mret, ST_ret, ret.
      by rewrite set_heap_id.
  - unfold mret, ST_ret, ret.
    destruct (dict_get r "condition") as [| | | |d]; cbn [forallb];
      try by rewrite set_heap_id.
    cbn in Htrue. apply negb_false_iff, bool_decide_eq_true in Htrue.
    subst d. rewrite lookup_empty. cbn [forallb]. by rewrite set_heap_id.
Qed.

Lemma for_clauses_not_ok body (rule : loc) (w : World) :
  condition_ok (obj w rule) = false →
  ∃ e w', for_clauses rule body w = (Raise e, w').
Proof.
  intros Hok.
  unfold for_clauses, mbind, ST_bind, bind, get.
  unfold condition_ok in Hok. apply orb_false_elim in Hok as [Htrue Hok].
  apply negb_false_iff in Htrue. rewrite Htrue.
  destruct (dict_get (obj w rule) "condition") as [| | | |d];
    cbn [subscript]; unfold raise; eauto.
  destruct (d !! "clauses") as [v|]; [|eauto].
  destruct v as [| |s|clauses|d']; cbn [clauses_ok] in Hok; eauto.
  - rewrite Hok. eauto.
  - destruct (map_clauses_not_dicts body clauses Hok) as (done & e & ->).
    unfold setitem, modify. eauto.
  - rewrite Hok. eauto.
Qed.

(** ** One spec rule into the schema *)

Lemma wrap_items_lookup (d : dict) (k : string) :
  wrap_items d !! k = to_single_item_list k <$> d !! k.
Proof. unfold wrap_items. rewrite map_lookup_imap. by destruct (d !! k). Qed.

Lemma unwrap_dict_lookup (d : dict) (k : string) :
  unwrap_dict d !! k = from_single_item_list k <$> d !! k.
Proof. unfold unwrap_dict. rewrite map_lookup_imap. by destruct (d !! k). Qed.

Lemma retarget_lookup_ne rule_type ref_id (r : dict) (k : string) :
  k ≠ "type" → k ≠ "to" → k ≠ "ref_id" →
  retarget rule_type ref_id r !! k = r !! k.
Proof.
  intros H1 H2 H3. unfold retarget.
  repeat case_bool_decide;
    by rewrite ?lookup_delete_ne, ?lookup_insert_ne by done.
Qed.

Lemma schema_form_condition rule_type ref_id (r : dict) :
  dict_get (wrap_items (retarget rule_type ref_id r)) "condition"
  = dict_get r "condition".
Proof.
  unfold dict_get. rewrite wrap_items_lookup, retarget_lookup_ne by done.
  by destruct (r !! "condition").
Qed.

Lemma condition_ok_ext (r r' : dict) :
  dict_get r "condition" = dict_get r' "condition" →
  condition_ok r = condition_ok r'.
Proof. unfold condition_ok. by intros ->. Qed.

(** The run of [_spec_rule_to_schema] up to the loop over the clauses. *)
Lemma _spec_rule_to_schema_run (rule : loc) (w : World) cn ty ct :
  spec_group_name (obj w rule) = Some cn →
  obj w rule !! "type" = Some (VStr ty) →
  rule_constant_type (lower ty) = Some ct →
  ∃ (ref_id : value) (cs : list Constant) (n : N),
    let r3 := wrap_items (retarget (lower ty) ref_id (obj w rule)) in
    _spec_rule_to_schema rule w
    = (for_clauses rule (guarded (λ _, true) wrap_items TypeError) ;;
       _add_rule rule)
        (set_schema (set_constants cs)
           (set_new_ref_id n (set_heap <[rule := r3]> w)))
    ∧ registers (schema w) (set_constants cs (schema w)) ref_id cn.
Proof.
  intros Hname Hty Hct.
  set (r := obj w rule) in *.
  assert (Hct' : ct ∈ constant_types).
  { unfold rule_constant_type in Hct.
    unfold constant_types.
    repeat case_bool_decide; simplify_eq; [left|right; left]. }
  unfold spec_group_name in Hname.
  destruct (r !! "to") as [to|] eqn:Hto; [|done].
  assert (Hcn : (if truthy to then mret to else getitem rule "ref_id") w
                = (Ok cn, w)).
  { destruct (truthy to); [by simplify_eq|].
    unfold getitem. fold r. by rewrite Hname. }
  unfold rule_constant_type in Hct.
  assert (Hbody : (λ d : dict, inr (wrap_items d))
                  = guarded (λ _, true) wrap_items TypeError) by done.
  destruct (bool_decide (lower ty ∈ ["filter"; "search"])) eqn:Hf.
  - assert (Hc : bool_decide (lower ty = "categorize") = false).
    { apply bool_decide_eq_false. intros Heq. rewrite Heq in Hf.
      vm_compute in Hf. discriminate. }
    simplify_eq.
    set (w1 := set_heap <[rule := <["type" := VStr "filter"]> r]> w).
    destruct (_add_constant_spec cn "Static Group" w1 Hct')
      as (ref_id & cs & n & Hadd & Hreg).
    exists ref_id, cs, n. split; [|done].
    unfold _spec_rule_to_schema, mbind, ST_bind, bind.
    unfold getitem at 1. fold r. rewrite Hto, Hcn.
    unfold getitem at 1. fold r. rewrite Hty.
    cbn [str_lower]. unfold mret at 1, ST_ret, ret. rewrite Hf, Hc.
    unfold setitem at 1, modify. fold r. fold w1.
    unfold mret at 1, ST_ret, ret. rewrite Hadd.
    unfold setitem, modify, mret, ST_ret, ret, for_items.
    unfold obj, w1, set_heap, set_schema, set_new_ref_id.
    cbn [heap self _new_ref_id _id _uri _schema].
    rewrite ?lookup_total_insert_eq, ?insert_insert_eq.
    unfold retarget. rewrite Hf, Hc. fold (obj w rule). fold r.
    by rewrite Hbody.
  - destruct (bool_decide (lower ty = "categorize")) eqn:Hc; [|done].
    simplify_eq.
    destruct (_add_constant_spec cn "Dynamic Group Block" w Hct')
      as (ref_id & cs & n & Hadd & Hreg).
    exists ref_id, cs, n. split; [|done].
    unfold _spec_rule_to_schema, mbind, ST_bind, bind.
    unfold getitem at 1. fold r. rewrite Hto, Hcn.
    unfold getitem at 1. fold r. rewrite Hty.
    cbn [str_lower]. unfold mret at 1, ST_ret, ret. rewrite Hf, Hc.
    unfold mret at 1, ST_ret, ret. rewrite Hadd.
    unfold setitem, getitem, delitem, modify, mret, ST_ret, ret, for_items.
    unfold obj, set_heap, set_schema, set_new_ref_id.
    cbn [heap self _new_ref_id _id _uri _schema].
    rewrite ?lookup_total_insert_eq, ?insert_insert_eq.
    rewrite lookup_insert_eq.
    cbn [heap self _new_ref_id _id _uri _schema].
    rewrite ?lookup_total_insert_eq, ?insert_insert_eq.
    rewrite lookup_insert_ne, lookup_insert_eq by done.
    cbn [heap self _new_ref_id _id _uri _schema].
    rewrite ?lookup_total_insert_eq, ?insert_insert_eq.
    unfold retarget. rewrite Hf, Hc. fold (obj w rule). fold r.
    by rewrite Hbody.
Qed.

Lemma clauses_all_true (r : dict) : clauses_all (λ _, true) r = true.
Proof.
  unfold clauses_all. induction (clauses_of r) as [|v l IH]; [done|].
  cbn. rewrite IH. by destruct v.
Qed.

(** A rule that names its group, has a known type and a condition the
    loop can go through is translated; the rule object is rewritten in
    place and appended to the rules of the schema. *)
Lemma _spec_rule_to_schema_ok (rule : loc) (w : World) cn ty ct :
  spec_group_name (obj w rule) = Some cn →
  obj w rule !! "type" = Some (VStr ty) →
  rule_constant_type (lower ty) = Some ct →
  condition_ok (obj w rule) = true →
  ∃ (ref_id : value) (cs : list Constant) (n : N),
    _spec_rule_to_schema rule w
    = (Ok tt,
       after_rule rule (schema_form (lower ty) ref_id (obj w rule)) cs n w)
    ∧ registers (schema w) (set_constants cs (schema w)) ref_id cn.
Proof.
  intros Hname Hty Hct Hcond.
  destruct (_spec_rule_to_schema_run rule w cn ty ct Hname Hty Hct)
    as (ref_id & cs & n & Hrun & Hfacts).
  exists ref_id, cs, n. split; [|done].
  rewrite Hrun. clear Hrun. cbv zeta.
  set (r3 := wrap_items (retarget (lower ty) ref_id (obj w rule))).
  set (w3 := set_schema _ _).
  assert (Hr3 : heap w3 !! rule = Some r3).
  { unfold w3. cbn [heap set_schema set_new_ref_id set_heap].
    by rewrite lookup_insert_eq. }
  assert (Hcond3 : condition_ok r3 = true).
  { rewrite <-Hcond. apply condition_ok_ext, schema_form_condition. }
  pose proof (for_clauses_guarded (λ _, true) wrap_items TypeError
                rule w3 r3 Hr3 Hcond3) as Hclauses.
  rewrite clauses_all_true in Hclauses.
  unfold mbind, ST_bind, bind. rewrite Hclauses.
  unfold _add_rule, modify, after_rule, schema_form. fold r3. f_equal.
  unfold w3, set_heap, set_schema, set_new_ref_id.
  cbn [heap self _new_ref_id _id _uri _schema].
  by rewrite insert_insert_eq.
Qed.

(** And only such a rule is. *)
Lemma _spec_rule_to_schema_inv (rule : loc) (w w' : World) :
  _spec_rule_to_schema rule w = (Ok tt, w') →
  ∃ cn ty ct,
    spec_group_name (obj w rule) = Some cn
    ∧ obj w rule !! "type" = Some (VStr ty)
    ∧ rule_constant_type (lower ty) = Some ct
    ∧ condition_ok (obj w rule) = true.
Proof.
  intros Hok.
  destruct (spec_group_name (obj w rule)) as [cn|] eqn:Hname.
  2:{ exfalso. revert Hok. unfold spec_group_name in Hname.
      unfold _spec_rule_to_schema, mbind, ST_bind, bind, getitem.
      destruct (obj w rule !! "to") as [to|]; [|done].
      destruct (truthy to); [done|]. by rewrite Hname. }
  assert (Hcn : ∃ to, obj w rule !! "to" = Some to
                ∧ (if truthy to then mret to else getitem rule "ref_id") w
                  = (Ok cn, w)).
  { unfold spec_group_name in Hname.
    destruct (obj w rule !! "to") as [to|]; [|done]. exists to.
    split; [done|]. destruct (truthy to); [by simplify_eq|].
    unfold getitem. by rewrite Hname. }
  destruct Hcn as (to & Hto & Hcn).
  destruct (obj w rule !! "type") as [[| |ty| |]|] eqn:Hty;
    try (exfalso; revert Hok;
         unfold _spec_rule_to_schema, mbind, ST_bind, bind;
         unfold getitem at 1; rewrite Hto, Hcn;
         unfold getitem at 1; rewrite Hty; done).
  destruct (rule_constant_type (lower ty)) as [ct|] eqn:Hct.
  2:{ exfalso. revert Hok. unfold rule_constant_type in Hct.
      unfold _spec_rule_to_schema, mbind, ST_bind, bind.
      unfold getitem at 1. rewrite Hto, Hcn.
      unfold getitem at 1. rewrite Hty.
      cbn [str_lower]. unfold mret at 1, ST_ret, ret.
      repeat case_bool_decide; done. }
  exists cn, ty, ct. repeat split; try done.
  destruct (condition_ok (obj w rule)) eqn:Hcond; [done|]. exfalso.
  destruct (_spec_rule_to_schema_run rule w cn ty ct Hname Hty Hct)
    as (ref_id & cs & n & Hrun & _).
  rewrite Hrun in Hok. cbv zeta in Hok.
  set (w3 := set_schema _ _) in Hok.
  destruct (for_clauses_not_ok (guarded (λ _, true) wrap_items TypeError)
              rule w3) as (e & w'' & Hraise).
  { rewrite <-Hcond. apply condition_ok_ext.
    unfold w3, obj. cbn [heap set_schema set_new_ref_id set_heap].
    rewrite lookup_total_insert_eq. apply schema_form_condition. }
  unfold mbind, ST_bind, bind in Hok. by rewrite Hraise in Hok.
Qed.

(** ** One schema rule into the spec *)

Lemma items_ok_fields_ok (d : dict) : items_ok d = fields_ok d.
Proof.
  unfold items_ok, fields_ok, _single_item_list_keys. cbn [forallb].
  rewrite andb_true_r.
  apply eq_true_iff_eq. rewrite bool_decide_eq_true, andb_true_iff.
  split.
  - intros H. split.
    + destruct (d !! "field") as [[| | |l|]|] eqn:Hl; try done.
      by apply (H "field" (VList l)).
    + destruct (d !! "tag_field") as [[| | |l|]|] eqn:Hl; try done.
      by apply (H "tag_field" (VList l)).
  - intros [H1 H2] key v Hkv. unfold single_item_ok.
    destruct v as [| | |l|]; try done.
    case_bool_decide as Hkey; [|done].
    apply elem_of_cons in Hkey as [->|Hkey].
    { by rewrite Hkv in H1. }
    apply elem_of_cons in Hkey as [->|Hkey].
    { by rewrite Hkv in H2. }
    by apply elem_of_nil in Hkey.
Qed.

Lemma unwrap_items_guarded (d : dict) :
  unwrap_items d
  = guarded fields_ok unwrap_dict (RuntimeError ExpectedSingleItemList) d.
Proof. unfold unwrap_items, guarded. by rewrite items_ok_fields_ok. Qed.

Lemma map_clauses_ext body body' (clauses : list value) :
  (∀ d, body d = body' d) →
  map_clauses body clauses = map_clauses body' clauses.
Proof.
  intros Hext. induction clauses as [|v clauses IH]; [done|].
  destruct v; cbn [map_clauses]; try done. by rewrite Hext, IH.
Qed.

Lemma for_clauses_ext body body' (rule : loc) (w : World) :
  (∀ d, body d = body' d) →
  for_clauses rule body w = for_clauses rule body' w.
Proof.
  intros Hext. unfold for_clauses, mbind, ST_bind, bind.
  destruct (get rule "condition" w) as [[c| |] w1]; [|done..].
  destruct (truthy c); [|done].
  destruct (subscript c "clauses") as [e|[| | |clauses|]]; try done.
  by rewrite (map_clauses_ext body body').
Qed.

Lemma renamed_lookup_ne group (r : dict) (k : string) :
  k ≠ "to" → k ≠ "ref_id" → renamed group r !! k = r !! k.
Proof.
  intros H1 H2. unfold renamed. rewrite lookup_insert_ne by done.
  destruct (truthy _); [by rewrite lookup_delete_ne|done].
Qed.

Lemma fields_ok_renamed group (r : dict) :
  fields_ok (renamed group r) = fields_ok r.
Proof.
  unfold fields_ok, _single_item_list_keys. cbn [forallb].
  by rewrite !renamed_lookup_ne.
Qed.

Lemma spec_form_condition group (r : dict) :
  dict_get (unwrap_dict (renamed group r)) "condition"
  = dict_get r "condition".
Proof.
  unfold dict_get. rewrite unwrap_dict_lookup, renamed_lookup_ne by done.
  destruct (r !! "condition") as [v|]; [|done]. cbn.
  by destruct v as [| | |[|x [|y l]]|].
Qed.

Lemma clauses_of_ext (r r' : dict) :
  dict_get r "condition" = dict_get r' "condition" →
  clauses_of r = clauses_of r'.
Proof. unfold clauses_of. by intros ->. Qed.

(** The loop body of [_spec_from_schema], on a rule that has a reference
    and a condition the loop over the clauses can go through: it raises
    exactly when a field list is malformed, and otherwise leaves the rule
    in spec form, the reference replaced by what the lookup answers. *)
Lemma _spec_rule_from_schema_run (rule : loc) (w : World) (ref : value) :
  schema_reference (obj w rule) = Some ref →
  condition_ok (obj w rule) = true →
  if rule_fields_ok (obj w rule)
  then _spec_rule_from_schema rule w
       = (Ok tt,
          set_heap
            <[rule := spec_form (_get_name_by_ref_id ref (schema w))
                                (obj w rule)]> w)
  else ∃ w', _spec_rule_from_schema rule w
             = (Raise (RuntimeError ExpectedSingleItemList), w').
Proof.
  intros Href Hcond. set (r := obj w rule) in *.
  set (group := _get_name_by_ref_id ref (schema w)).
  set (w1 := set_heap <[rule := renamed group r]> w).
  assert (Hrun : _spec_rule_from_schema rule w
                 = (for_items rule unwrap_items ;;
                    for_clauses rule unwrap_items) w1).
  { unfold _spec_rule_from_schema, mbind, ST_bind, bind, get. fold r.
    unfold schema_reference in Href. unfold w1, renamed.
    destruct (truthy (dict_get r "ref_id")) eqn:Htrue.
    - assert (Hr : r !! "ref_id" = Some ref).
      { unfold dict_get in *. destruct (r !! "ref_id"); by simplify_eq. }
      unfold getitem, setitem, delitem, modify, get_world. fold r.
      rewrite Hr.
      unfold obj, set_heap, schema. cbn [heap self].
      rewrite ?lookup_total_insert_eq, ?insert_insert_eq.
      change (heap w !!! rule) with r.
      rewrite lookup_insert_ne, Hr by done. cbn [heap self].
      rewrite ?lookup_total_insert_eq, ?insert_insert_eq.
      rewrite lookup_delete_ne, lookup_insert_eq by done. cbn [heap self].
      rewrite ?lookup_total_insert_eq, ?insert_insert_eq.
      rewrite delete_insert_ne, insert_insert_eq by done.
      done.
    - unfold mret, ST_ret, ret, getitem, setitem, modify, get_world. fold r.
      rewrite Href. done. }
  rewrite Hrun. clear Hrun.
  assert (Hobj1 : obj w1 rule = renamed group r).
  { unfold w1, obj, set_heap. cbn [heap]. by rewrite lookup_total_insert_eq. }
  set (r2 := unwrap_dict (renamed group r)).
  set (w2 := set_heap <[rule := r2]> w1).
  assert (Hitems : for_items rule unwrap_items w1
                   = if fields_ok r then (Ok tt, w2)
                     else (Raise (RuntimeError ExpectedSingleItemList), w1)).
  { unfold for_items. rewrite Hobj1, unwrap_items_guarded. unfold guarded.
    rewrite fields_ok_renamed. by destruct (fields_ok r). }
  unfold mbind, ST_bind, bind. rewrite Hitems. clear Hitems.
  unfold rule_fields_ok.
  destruct (fields_ok r); cbn [andb]; [|eauto].
  rewrite (for_clauses_ext _ _ rule w2 unwrap_items_guarded).
  assert (Hr2 : heap w2 !! rule = Some r2).
  { unfold w2, set_heap. cbn [heap]. by rewrite lookup_insert_eq. }
  assert (Hcond2 : condition_ok r2 = true).
  { rewrite <-Hcond. apply condition_ok_ext, spec_form_condition. }
  pose proof (for_clauses_guarded fields_ok unwrap_dict
                (RuntimeError ExpectedSingleItemList) rule w2 r2 Hr2 Hcond2)
    as Hclauses.
  assert (Hall : clauses_all fields_ok r2 = clauses_all fields_ok r).
  { unfold clauses_all. f_equal. apply clauses_of_ext, spec_form_condition. }
  rewrite Hall in Hclauses.
  destruct (clauses_all fields_ok r); [|done].
  rewrite Hclauses. f_equal. unfold spec_form. fold r2.
  unfold w2, w1, set_heap. cbn [heap self]. by rewrite !insert_insert_eq.
Qed.

(** ** The loop over the rules of a spec *)

Lemma for_each_cons_ok {Σ A} (x : A) (l : list A) (body : A → ST Σ unit)
    (σ σ' : Σ) :
  for_each (x :: l) body σ = (Ok tt, σ') →
  ∃ σ1, body x σ = (Ok tt, σ1) ∧ for_each l body σ1 = (Ok tt, σ').
Proof.
  cbn [for_each]. unfold mbind, ST_bind, bind.
  destruct (body x σ) as [[[]| |] σ1]; [eauto|done..].
Qed.

Lemma obj_after_rule_eq rule r' cs n w : obj (after_rule rule r' cs n w) rule = r'.
Proof.
  unfold after_rule, obj, set_schema, set_new_ref_id, set_heap. cbn [heap].
  by rewrite lookup_total_insert_eq.
Qed.

Lemma obj_after_rule_ne rule r' cs n w l :
  l ≠ rule → obj (after_rule rule r' cs n w) l = obj w l.
Proof.
  intros Hne.
  unfold after_rule, obj, set_schema, set_new_ref_id, set_heap. cbn [heap].
  by rewrite lookup_total_insert_ne.
Qed.

Lemma rules_to_schema (ls : list loc) :
  ∀ w w' : World,
    NoDup ls →
    for_each ls _spec_rule_to_schema w = (Ok tt, w') →
    rules (schema w') = rules (schema w) ++ ls
    ∧ name (schema w') = name (schema w)
    ∧ include_in_reports (schema w') = include_in_reports (schema w)
    ∧ (∀ l, l ∉ ls → obj w' l = obj w l)
    ∧ (∀ item, item ∈ registry (schema w) → item ∈ registry (schema w'))
    ∧ (NoDup (item_ref_id <$> registry (schema w)) →
       NoDup (item_ref_id <$> registry (schema w')))
    ∧ Forall (translated w w') ls.
Proof.
  induction ls as [|l ls IH]; intros w w' Hnd Hrun.
  { cbn in Hrun. injection Hrun as <-. rewrite app_nil_r.
    repeat split; auto. }
  apply NoDup_cons in Hnd as [Hl Hnd].
  apply for_each_cons_ok in Hrun as (w1 & Hfirst & Hrest).
  destruct (_spec_rule_to_schema_inv l w w1 Hfirst)
    as (cn & ty & ct & Hname & Hty & Hct & Hcond).
  destruct (_spec_rule_to_schema_ok l w cn ty ct Hname Hty Hct Hcond)
    as (ref_id & cs & n & Hrun & Hext & (item & Hitem & Href & Hcn) & Hnd1
        & Htrue).
  rewrite Hfirst in Hrun. injection Hrun as Hw1.
  destruct (IH w1 w' Hnd Hrest)
    as (Hrules & Hn & Hi & Hobj & Hext' & Hnd' & Hall).
  assert (Hreg1 : registry (schema w1)
                  = registry (set_constants cs (schema w))) by by subst w1.
  rewrite Hreg1 in Hext', Hnd'.
  split; [|split; [|split; [|split; [|split; [|split]]]]].
  - rewrite Hrules. subst w1. cbn. by rewrite <-(assoc_L (++)).
  - rewrite Hn. by subst w1.
  - rewrite Hi. by subst w1.
  - intros l' Hl'. apply not_elem_of_cons in Hl' as [Hne Hl'].
    rewrite Hobj by done. subst w1. by apply obj_after_rule_ne.
  - auto.
  - auto.
  - constructor.
    + exists ty, cn, ref_id. rewrite Hobj by done.
      split; [done|]. split; [by rewrite Hct|]. split; [done|].
      split; [done|]. split; [subst w1; apply obj_after_rule_eq|].
      split; [done|]. exists item. auto.
    + apply Forall_forall. intros l' Hl'.
      rewrite Forall_forall in Hall.
      destruct (Hall l' Hl') as (ty' & cn' & ref' & H1 & H2 & H3 & H4 & H5 & H6).
      assert (Hne : l' ≠ l) by (intros ->; done).
      assert (Heq : obj w1 l' = obj w l')
        by (subst w1; by apply obj_after_rule_ne).
      rewrite Heq in *. by exists ty', cn', ref'.
Qed.

(** ** A spec into the schema *)

Lemma map_condition_lookup_ne f (r : dict) (k : string) :
  k ≠ "condition" → map_condition f r !! k = r !! k.
Proof.
  intros Hk. unfold map_condition.
  destruct (dict_get r "condition") as [| | | |d]; try done.
  destruct (d !! "clauses") as [[| | |clauses|]|]; try done.
  by rewrite lookup_insert_ne.
Qed.

Lemma clauses_of_map_condition f (r : dict) :
  clauses_of (map_condition f r) = map_clause f <$> clauses_of r.
Proof.
  unfold map_condition, clauses_of.
  destruct (dict_get r "condition") as [| | | |d] eqn:Hc;
    try by rewrite Hc.
  destruct (d !! "clauses") as [[| | |clauses|]|] eqn:Hd;
    try by rewrite Hc, Hd.
  unfold dict_get. rewrite lookup_insert_eq. cbn [default id].
  by rewrite lookup_insert_eq.
Qed.

Lemma schema_form_lookup rule_type ref_id (r : dict) (k : string) :
  k ≠ "condition" →
  schema_form rule_type ref_id r !! k
  = to_single_item_list k <$> retarget rule_type ref_id r !! k.
Proof.
  intros Hk. unfold schema_form.
  by rewrite map_condition_lookup_ne, wrap_items_lookup.
Qed.

Lemma clauses_of_schema_form rule_type ref_id (r : dict) :
  clauses_of (schema_form rule_type ref_id r)
  = map_clause wrap_items <$> clauses_of r.
Proof.
  unfold schema_form. rewrite clauses_of_map_condition. f_equal.
  apply clauses_of_ext, schema_form_condition.
Qed.

Lemma single_item_list_key_cases (key : string) :
  key ∈ _single_item_list_keys → key = "field" ∨ key = "tag_field".
Proof.
  intros [->|[->|H%elem_of_nil]%elem_of_cons]%elem_of_cons; tauto.
Qed.

(** What [translated] says of the rule object, spelled out. *)
Lemma translated_rewritten (w w' : World) (l : loc) :
  translated w w' l → rewritten_for (schema w') (obj w l) (obj w' l).
Proof.
  intros (ty & group & ref_id & Hty & [ct Hct] & Hgroup & _ & Hobj & Htrue
          & Hitem).
  exists ty, group, ref_id. rewrite Hobj.
  set (r := obj w l) in *.
  assert (Hto : ∃ to, r !! "to" = Some to).
  { unfold spec_group_name in Hgroup. destruct (r !! "to"); [eauto|done]. }
  destruct Hto as [to Hto].
  assert (Hkinds :
    if bool_decide (lower ty = "categorize")
    then schema_form (lower ty) ref_id r !! "type" = Some (VStr ty)
         ∧ schema_form (lower ty) ref_id r !! "ref_id" = Some ref_id
         ∧ schema_form (lower ty) ref_id r !! "to" = None
    else schema_form (lower ty) ref_id r !! "type" = Some (VStr "filter")
         ∧ schema_form (lower ty) ref_id r !! "to" = Some ref_id).
  { rewrite !schema_form_lookup by done. unfold retarget, rule_constant_type in *.
    destruct (bool_decide (lower ty ∈ ["filter"; "search"])) eqn:Hf.
    - assert (Hc : bool_decide (lower ty = "categorize") = false).
      { apply bool_decide_eq_false. intros Heq. rewrite Heq in Hf.
        vm_compute in Hf. discriminate. }
      rewrite Hc. rewrite lookup_insert_ne, !lookup_insert_eq by done. done.
    - destruct (bool_decide (lower ty = "categorize")); [|done].
      rewrite lookup_delete_eq, !lookup_delete_ne, lookup_insert_eq by done.
      rewrite !lookup_insert_ne, Hty by done. done. }
  assert (Hfields : ∀ key, key ∈ _single_item_list_keys →
            schema_form (lower ty) ref_id r !! key
            = to_single_item_list key <$> r !! key).
  { intros key [->| ->]%single_item_list_key_cases;
      by rewrite schema_form_lookup, retarget_lookup_ne. }
  split; [done|]. split; [done|]. split; [done|]. split; [done|].
  split; [done|]. split; [apply clauses_of_schema_form|].
  intros Heq. rewrite Heq in Hkinds, Hfields.
  destruct (bool_decide (lower ty = "categorize")) eqn:Hc.
  { destruct Hkinds as (_ & _ & Hnone). by rewrite Hto in Hnone. }
  apply bool_decide_eq_false in Hc. destruct Hkinds as [_ Href].
  split; [done|]. split; [done|].
  intros (key & s & Hkey & Hs). specialize (Hfields key Hkey).
  rewrite Hs in Hfields. unfold to_single_item_list in Hfields.
  rewrite bool_decide_eq_true_2 in Hfields by done. discriminate.
Qed.

Lemma _schema_from_spec_unfold (spec : Spec loc) (w : World) :
  _schema_from_spec spec w
  = for_each (spec_rules spec) _spec_rule_to_schema (before_rules spec w).
Proof.
  unfold _schema_from_spec, before_rules, mbind, ST_bind, bind, modify.
  destruct (spec_include_in_reports spec) as [v|]; cbn [default id];
    [destruct (truthy v)|]; done.
Qed.

(** [_schema_from_spec], when it returns. *)
Lemma _schema_from_spec_ok (spec : Spec loc) (w w' : World) :
  NoDup (spec_rules spec) →
  _schema_from_spec spec w = (Ok tt, w') →
  rules (schema w') = spec_rules spec
  ∧ name (schema w') = spec_name spec
  ∧ include_in_reports (schema w')
    = (if truthy (default VNone (spec_include_in_reports spec))
       then default VNone (spec_include_in_reports spec)
       else include_in_reports (schema w))
  ∧ (∀ l, l ∉ spec_rules spec → obj w' l = obj w l)
  ∧ (∀ item, item ∈ registry (schema w) → item ∈ registry (schema w'))
  ∧ (NoDup (item_ref_id <$> registry (schema w)) →
     NoDup (item_ref_id <$> registry (schema w')))
  ∧ Forall (translated w w') (spec_rules spec).
Proof.
  intros Hnd. rewrite _schema_from_spec_unfold.
  set (v := default VNone (spec_include_in_reports spec)).
  set (w2 := before_rules spec w). intros Hrun.
  destruct (rules_to_schema (spec_rules spec) w2 w' Hnd Hrun)
    as (Hrules & Hn & Hi & Hobj & Hext & Hnd' & Hall).
  assert (Hobj2 : ∀ l, obj w2 l = obj w l) by done.
  assert (Hreg2 : registry (schema w2) = registry (schema w)).
  { unfold w2, before_rules. fold v. by destruct (truthy v). }
  rewrite Hreg2 in Hext, Hnd'.
  split; [|split; [|split; [|split; [|split; [|split]]]]].
  - by rewrite Hrules.
  - rewrite Hn. unfold w2, before_rules. fold v. by destruct (truthy v).
  - rewrite Hi. unfold w2, before_rules. fold v. by destruct (truthy v).
  - intros l Hl. by rewrite Hobj, Hobj2.
  - done.
  - done.
  - eapply Forall_impl; [exact Hall|]. intros l.
    unfold translated. by rewrite Hobj2.
Qed.

(** C10, as amended (the spec is rewritten in place).  When a spec
    whose rules are distinct objects is applied without error, the rule
    objects of the spec are the rules of the schema, and each of them now
    is in schema form: its reference holds the ref_id of the group it
    named (under ['to'] with type "filter", or under ['ref_id'] with
    ['to'] removed for a categorize rule) and its string fields are
    one-item lists, in the rule and in its clauses.  An object is left
    as it was only if it is a filter rule with no scalar field whose
    ['to'] already was the ref_id of its group. *)
Theorem spec_rules_are_rewritten_in_place (spec : Spec loc) (w w' : World) :
  NoDup (spec_rules spec) →
  _schema_from_spec spec w = (Ok tt, w') →
  rules (schema w') = spec_rules spec
  ∧ Forall (λ l, rewritten_for (schema w') (obj w l) (obj w' l))
           (spec_rules spec).
Proof.
  intros Hnd Hrun.
  destruct (_schema_from_spec_ok spec w w' Hnd Hrun)
    as (Hrules & _ & _ & _ & _ & _ & Hall).
  split; [done|].
  eapply Forall_impl; [exact Hall|]. intros l. apply translated_rewritten.
Qed.

Lemma spec_rules_are_rewritten_in_place_witness :
  rules (schema scenario_A_result) = spec_rules scenario_A_spec
  ∧ Forall (λ l, rewritten_for (schema scenario_A_result)
                   (obj scenario_A_world l) (obj scenario_A_result l))
           (spec_rules scenario_A_spec).
Proof.
  apply spec_rules_are_rewritten_in_place.
  - apply NoDup_singleton.
  - vm_compute. reflexivity.
Defined.

(** C10, as stated, fails: a rule without a scalar field that names the
    group "101" on a new perspective gets the ref_id "101" for it, and
    the rule object is after the application what it was before. *)
Lemma spec_preserved_when_name_is_ref_id :
  ∃ w' : World,
    _schema_from_spec cost_center_spec cost_center_world = (Ok tt, w')
    ∧ obj cost_center_world 0 !! "to" = Some (VStr "101")
    ∧ rules (schema w') = [0]
    ∧ obj w' 0 = obj cost_center_world 0.
Proof.
  eexists. split; [vm_compute; reflexivity|].
  repeat split; vm_compute; reflexivity.
Qed.

(** ** The loop over the rules of a schema *)

Lemma forallb_ext_in {A} (f g : A → bool) (l : list A) :
  (∀ x, x ∈ l → f x = g x) → forallb f l = forallb g l.
Proof.
  induction l as [|x l IH]; intros H; [done|]. cbn.
  rewrite (H x) by left. rewrite IH; [done|]. intros y Hy. apply H. by right.
Qed.

Lemma rules_from_schema (ls : list loc) :
  ∀ w : World,
    NoDup ls →
    Forall (λ l, rule_shaped (obj w l) = true) ls →
    if forallb (λ l, rule_fields_ok (obj w l)) ls
    then ∃ w', for_each ls _spec_rule_from_schema w = (Ok tt, w')
               ∧ schema w' = schema w
               ∧ (∀ l, l ∈ ls →
                       obj w' l = derived_rule (schema w) (obj w l))
               ∧ (∀ l, l ∉ ls → obj w' l = obj w l)
    else ∃ w', for_each ls _spec_rule_from_schema w
               = (Raise (RuntimeError ExpectedSingleItemList), w').
Proof.
  induction ls as [|l ls IH]; intros w Hnd Hshaped.
  { cbn. exists w. repeat split; auto. intros l Hl. by apply elem_of_nil in Hl. }
  apply NoDup_cons in Hnd as [Hl Hnd].
  apply Forall_cons in Hshaped as [Hhead Hshaped].
  unfold rule_shaped in Hhead.
  apply andb_prop in Hhead as [[ref Href]%bool_decide_eq_true Hcond].
  pose proof (_spec_rule_from_schema_run l w ref Href Hcond) as Hrun.
  cbn [forallb for_each]. unfold mbind, ST_bind, bind.
  destruct (rule_fields_ok (obj w l)); cbn [andb].
  2:{ destruct Hrun as [w' ->]. eauto. }
  rewrite Hrun.
  set (w1 := set_heap _ w).
  assert (Hobj1 : ∀ l', l' ≠ l → obj w1 l' = obj w l').
  { intros l' Hne. unfold w1, obj, set_heap. cbn [heap].
    by rewrite lookup_total_insert_ne. }
  assert (Hobj1' : obj w1 l = derived_rule (schema w) (obj w l)).
  { unfold w1, obj, set_heap, derived_rule. cbn [heap].
    rewrite lookup_total_insert_eq. fold (obj w l). by rewrite Href. }
  assert (Hin : ∀ l', l' ∈ ls → l' ≠ l) by (intros l' Hl' ->; done).
  assert (Hshaped1 : Forall (λ l, rule_shaped (obj w1 l) = true) ls).
  { apply Forall_forall. intros l' Hl'. rewrite Forall_forall in Hshaped.
    rewrite Hobj1 by auto. auto. }
  specialize (IH w1 Hnd).
  rewrite (forallb_ext_in (λ l, rule_fields_ok (obj w1 l))
                          (λ l, rule_fields_ok (obj w l))) in IH.
  2:{ intros l' Hl'. by rewrite Hobj1 by auto. }
  destruct (forallb _ ls).
  - destruct (IH Hshaped1) as (w' & -> & Hs & Hobj & Hframe).
    exists w'. split; [done|]. split; [done|]. split.
    + intros l' [->|Hl']%elem_of_cons.
      * by rewrite Hframe.
      * rewrite Hobj by done. change (schema w1) with (schema w).
        by rewrite Hobj1 by auto.
    + intros l' [Hne Hl']%not_elem_of_cons. rewrite Hframe by done. auto.
  - destruct (IH Hshaped1) as (w' & ->). eauto.
Qed.

(** [_spec_from_schema] on a schema whose rules are distinct objects the
    loop can read: it raises exactly when some rule has a malformed field
    list, and otherwise answers the derived rules. *)
Lemma _spec_from_schema_run (w : World) :
  NoDup (rules (schema w)) →
  Forall (λ l, rule_shaped (obj w l) = true) (rules (schema w)) →
  _spec_from_schema w
  = if forallb (λ l, rule_fields_ok (obj w l)) (rules (schema w))
    then Ok (mkSpec (name (schema w)) (Some (include_in_reports (schema w)))
               ((λ l, derived_rule (schema w) (obj w l))
                  <$> rules (schema w)))
    else Raise (RuntimeError ExpectedSingleItemList).
Proof.
  intros Hnd Hshaped. unfold _spec_from_schema.
  pose proof (rules_from_schema (rules (schema w)) w Hnd Hshaped) as Hrun.
  destruct (forallb _ (rules (schema w))).
  - destruct Hrun as (w' & -> & _ & Hobj & _). do 2 f_equal.
    apply list_fmap_ext. intros i l Hl. apply Hobj.
    by eapply list_elem_of_lookup_2.
  - by destruct Hrun as (w' & ->).
Qed.

(** ** Deriving a spec *)

Lemma spec_form_lookup group (r : dict) (k : string) :
  k ≠ "condition" →
  spec_form group r !! k = from_single_item_list k <$> renamed group r !! k.
Proof.
  intros Hk. unfold spec_form.
  by rewrite map_condition_lookup_ne, unwrap_dict_lookup.
Qed.

Lemma clauses_of_spec_form group (r : dict) :
  clauses_of (spec_form group r) = map_clause unwrap_dict <$> clauses_of r.
Proof.
  unfold spec_form. rewrite clauses_of_map_condition. f_equal.
  apply clauses_of_ext, spec_form_condition.
Qed.

Lemma unwrapped_unwrap_dict (d : dict) : unwrapped d (unwrap_dict d).
Proof.
  intros key x Hkey Hx. rewrite unwrap_dict_lookup, Hx. cbn.
  by rewrite bool_decide_eq_true_2.
Qed.

Lemma unwrapped_spec_form group (r : dict) :
  unwrapped r (spec_form group r)
  ∧ Forall2 unwrapped_clause (clauses_of r) (clauses_of (spec_form group r)).
Proof.
  split.
  - intros key x Hkey Hx.
    apply single_item_list_key_cases in Hkey as Hcases.
    rewrite spec_form_lookup by (by destruct Hcases as [-> | ->]).
    rewrite renamed_lookup_ne by (by destruct Hcases as [-> | ->]).
    rewrite Hx. cbn. by rewrite bool_decide_eq_true_2.
  - rewrite clauses_of_spec_form. apply Forall2_fmap_r, Forall_Forall2_diag.
    apply Forall_forall. intros v _. unfold unwrapped_clause.
    destruct v as [| | | |d]; try done. cbn.
    eauto using unwrapped_unwrap_dict.
Qed.

Lemma derived_rule_shaped {R} (s : Schema R) (r : dict) :
  rule_shaped r = true →
  ∃ ref, schema_reference r = Some ref
         ∧ derived_rule s r = spec_form (_get_name_by_ref_id ref s) r.
Proof.
  unfold rule_shaped, derived_rule.
  intros [[ref Href]%bool_decide_eq_true _]%andb_prop.
  exists ref. by rewrite Href.
Qed.

Lemma forallb_Forall_true {A} (f : A → bool) (l : list A) :
  Forall (λ x, f x = true) l → forallb f l = true.
Proof. induction 1; cbn; [done|]. by rewrite H, IHForall. Qed.

Lemma forallb_Exists_false {A} (f : A → bool) (l : list A) :
  Exists (λ x, f x = false) l → forallb f l = false.
Proof.
  induction 1 as [x l H|x l H IH]; cbn; [by rewrite H|].
  rewrite IH. apply andb_false_r.
Qed.

(** C6 (malformed field lists are fatal).  For a schema whose rules are
    distinct objects, each with a reference (['to'], or a true
    ['ref_id']) and a condition that is absent or has a list of
    dictionaries for clauses: if in some rule a ['field'] or ['tag_field']
    list, of the rule or of a clause, has not exactly one item, the
    derivation raises the "expected a list with just 1 item" error; and
    if there is no such list it returns a spec in which every one-item
    list under these keys, in the rules and in their clauses, has been
    replaced by its item. *)
Theorem malformed_field_lists_are_fatal (w : World) :
  NoDup (rules (schema w)) →
  Forall (λ l, rule_shaped (obj w l) = true) (rules (schema w)) →
  (Exists (λ l, rule_fields_ok (obj w l) = false) (rules (schema w)) →
   _spec_from_schema w = Raise (RuntimeError ExpectedSingleItemList))
  ∧ (Forall (λ l, rule_fields_ok (obj w l) = true) (rules (schema w)) →
     ∃ spec : Spec dict,
       _spec_from_schema w = Ok spec
       ∧ Forall2 (λ l r',
            unwrapped (obj w l) r'
            ∧ Forall2 unwrapped_clause (clauses_of (obj w l)) (clauses_of r'))
           (rules (schema w)) (spec_rules spec)).
Proof.
  intros Hnd Hshaped. rewrite (_spec_from_schema_run w Hnd Hshaped). split.
  - intros Hbad. by rewrite forallb_Exists_false.
  - intros Hgood. rewrite forallb_Forall_true by done.
    eexists. split; [done|]. cbn [spec_rules].
    apply Forall2_fmap_r, Forall_Forall2_diag.
    eapply Forall_impl; [exact Hshaped|]. intros l Hl. unfold compose. cbn beta in *.
    destruct (derived_rule_shaped (schema w) _ Hl) as (ref & _ & ->).
    apply unwrapped_spec_form.
Qed.

Lemma malformed_field_lists_are_fatal_witness :
  _spec_from_schema scenario_D_world
  = Raise (RuntimeError ExpectedSingleItemList).
Proof.
  apply (malformed_field_lists_are_fatal scenario_D_world).
  - apply NoDup_singleton.
  - repeat constructor.
  - apply Exists_cons_hd. vm_compute. reflexivity.
Defined.

Lemma _get_name_by_ref_id_unresolved (s : Schema loc) (ref : value) :
  (∀ item, item ∈ registry s → item_ref_id item ≠ ref) →
  _get_name_by_ref_id ref s = VNone.
Proof.
  intros Hnone. unfold _get_name_by_ref_id.
  destruct (List.find _ _) as [item|] eqn:Hfind; [|done]. exfalso.
  apply find_some in Hfind as [Hin [Href Hother]%andb_prop].
  apply bool_decide_eq_true in Href. apply (Hnone item); [|done].
  apply registry_elem_of. by rewrite list_elem_of_In.
Qed.

(** C4, as amended (unresolved references).  For a schema whose rules
    are distinct objects the loop can read and have well-formed field
    lists, the derivation returns a spec, also when a reference resolves
    to no group: the ['to'] of such a rule is [None] in the spec. *)
Theorem unresolved_references_become_none (w : World) :
  NoDup (rules (schema w)) →
  Forall (λ l, rule_shaped (obj w l) = true) (rules (schema w)) →
  Forall (λ l, rule_fields_ok (obj w l) = true) (rules (schema w)) →
  ∃ spec : Spec dict,
    _spec_from_schema w = Ok spec
    ∧ Forall2 (λ l r', unresolved (schema w) (obj w l) →
                       r' !! "to" = Some VNone)
        (rules (schema w)) (spec_rules spec).
Proof.
  intros Hnd Hshaped Hgood. rewrite (_spec_from_schema_run w Hnd Hshaped).
  rewrite forallb_Forall_true by done.
  eexists. split; [done|]. cbn [spec_rules].
  apply Forall2_fmap_r, Forall_Forall2_diag.
  eapply Forall_impl; [exact Hshaped|]. intros l Hl. unfold compose.
  cbn beta in *. intros (ref & Href & Hnone).
  unfold derived_rule. rewrite Href.
  rewrite (_get_name_by_ref_id_unresolved _ _ Hnone).
  rewrite spec_form_lookup by done. unfold renamed.
  by rewrite lookup_insert_eq.
Qed.

Lemma unresolved_references_become_none_witness :
  ∃ spec : Spec dict,
    _spec_from_schema dangling_world = Ok spec
    ∧ Forall2 (λ l r', unresolved (schema dangling_world)
                         (obj dangling_world l) →
                       r' !! "to" = Some VNone)
        (rules (schema dangling_world)) (spec_rules spec).
Proof.
  apply unresolved_references_become_none.
  - apply NoDup_singleton.
  - repeat constructor.
  - repeat constructor.
Defined.

(** C4, as stated, fails: the rule refers to "999", the schema has no
    such group, and the derivation returns a spec, with [None] for the
    group of the rule. *)
Lemma unresolved_reference_is_not_fatal :
  unresolved (schema dangling_world) (obj dangling_world 0)
  ∧ rules (schema dangling_world) = [0]
  ∧ _spec_from_schema dangling_world
    = Ok (mkSpec (VStr "Env") (Some (VStr "true"))
            [<["type" := VStr "filter"]>
               (<["field" := VStr "env"]> (<["to" := VNone]> ∅))]).
Proof.
  split; [|split; [done|vm_compute; reflexivity]].
  exists (VStr "999"). split; [vm_compute; reflexivity|].
  intros item Hin Href. vm_compute in Hin.
  apply list_elem_of_singleton in Hin. subst item. discriminate Href.
Qed.

(** ** The round trip *)

Lemma map_condition_lookup f (r : dict) :
  map_condition f r !! "condition"
  = map_condition_value f <$> r !! "condition".
Proof.
  unfold map_condition, dict_get.
  destruct (r !! "condition") as [v|] eqn:Hv; cbn [default fmap option_fmap option_map id];
    [|by rewrite Hv].
  destruct v as [| | | |d]; cbn [map_condition_value]; try by rewrite Hv.
  destruct (d !! "clauses") as [[| | |clauses|]|]; try by rewrite Hv.
  by rewrite lookup_insert_eq.
Qed.

Lemma fields_scalar_lookup (d : dict) (key : string) (v : value) :
  fields_scalar d = true → key ∈ _single_item_list_keys →
  d !! key = Some v → is_list v = false.
Proof.
  unfold fields_scalar, _single_item_list_keys. cbn [forallb].
  intros [H1 [H2 _]%andb_prop]%andb_prop
    [-> | ->]%single_item_list_key_cases Hv; rewrite Hv in *;
    by destruct v.
Qed.

Lemma from_to_single_item_list (key : string) (v : value) :
  (key ∈ _single_item_list_keys → is_list v = false) →
  from_single_item_list key (to_single_item_list key v) = v.
Proof.
  intros Hv. unfold to_single_item_list, from_single_item_list.
  case_bool_decide as Hkey; cbn [andb].
  - specialize (Hv Hkey). by destruct v.
  - by destruct v as [| | |[|x [|y l]]|].
Qed.

Lemma unwrap_wrap_items (d : dict) :
  fields_scalar d = true → unwrap_dict (wrap_items d) = d.
Proof.
  intros Hd. apply map_eq. intros k.
  rewrite unwrap_dict_lookup, wrap_items_lookup.
  destruct (d !! k) as [v|] eqn:Hv; [|done]. cbn. f_equal.
  apply from_to_single_item_list. intros Hk.
  by eapply fields_scalar_lookup.
Qed.

Lemma fields_ok_wrap_lookup (d d' : dict) :
  fields_scalar d = true →
  (∀ key, key ∈ _single_item_list_keys →
          d' !! key = to_single_item_list key <$> d !! key) →
  fields_ok d' = true.
Proof.
  intros Hd Hd'. unfold fields_ok.
  apply forallb_Forall_true, Forall_forall. intros key Hkey.
  rewrite Hd' by done.
  destruct (d !! key) as [v|] eqn:Hv; [|done]. cbn.
  pose proof (fields_scalar_lookup d key v Hd Hkey Hv) as Hlist.
  unfold to_single_item_list. rewrite bool_decide_eq_true_2 by done.
  by destruct v.
Qed.

Lemma unwrap_wrap_clauses (clauses : list value) :
  forallb (λ v, match v with VDict c => fields_scalar c | _ => true end)
          clauses = true →
  map_clause unwrap_dict <$> (map_clause wrap_items <$> clauses) = clauses.
Proof.
  induction clauses as [|v clauses IH]; [done|].
  cbn [forallb]. intros [Hv Hcs]%andb_prop. cbn. rewrite IH by done.
  destruct v; cbn; try done. by rewrite unwrap_wrap_items.
Qed.

Lemma unwrap_wrap_condition (v : value) :
  forallb (λ v, match v with VDict c => fields_scalar c | _ => true end)
          (match v with
           | VDict d =>
               match d !! "clauses" with
               | Some (VList clauses) => clauses
               | _ => []
               end
           | _ => []
           end) = true →
  map_condition_value unwrap_dict (map_condition_value wrap_items v) = v.
Proof.
  destruct v as [| | | |d]; try done. cbn [map_condition_value].
  destruct (d !! "clauses") as [[| | |clauses|]|] eqn:Hd;
    cbn [map_condition_value]; try by rewrite Hd.
  intros Hcs. rewrite lookup_insert_eq, insert_insert_eq.
  rewrite unwrap_wrap_clauses by done. by rewrite insert_id.
Qed.

Lemma to_single_item_list_other (key : string) (o : option value) :
  key ∉ _single_item_list_keys → to_single_item_list key <$> o = o.
Proof.
  intros Hkey. destruct o as [v|]; [|done]. cbn.
  unfold to_single_item_list. by rewrite bool_decide_eq_false_2.
Qed.

Lemma from_single_item_list_other (key : string) (o : option value) :
  key ∉ _single_item_list_keys → from_single_item_list key <$> o = o.
Proof.
  intros Hkey. destruct o as [v|]; [|done]. cbn. f_equal.
  unfold from_single_item_list.
  destruct v as [| | |[|x [|y l]]|]; try done.
  by rewrite bool_decide_eq_false_2.
Qed.

Ltac not_a_key :=
  let H := fresh in
  intros H; apply single_item_list_key_cases in H as [H|H]; discriminate.

Lemma condition_ok_map_condition f (r : dict) :
  condition_ok r = true → condition_ok (map_condition f r) = true.
Proof.
  unfold condition_ok, dict_get. rewrite map_condition_lookup.
  destruct (r !! "condition") as [v|]; [|done]. cbn [fmap option_fmap option_map default id].
  destruct v as [| | | |d]; try done. cbn [map_condition_value].
  destruct (d !! "clauses") as [[| | |clauses|]|] eqn:Hd;
    try (by rewrite Hd).
  intros H. apply orb_true_iff. right. rewrite lookup_insert_eq.
  apply orb_true_iff in H as [H|H].
  - cbn [truthy] in H. rewrite negb_involutive in H.
    apply bool_decide_eq_true in H. subst d. by rewrite lookup_empty in Hd.
  - cbn [clauses_ok] in *.
    clear Hd. induction clauses as [|v clauses IH]; [done|].
    cbn in *. apply andb_prop in H as [Hv H]. rewrite IH by done.
    by destruct v.
Qed.

Lemma retarget_filter rule_type ref_id (r : dict) :
  rule_type ∈ ["filter"; "search"] →
  retarget rule_type ref_id r
  = <["to" := ref_id]> (<["type" := VStr "filter"]> r).
Proof.
  intros H. unfold retarget. rewrite (bool_decide_eq_true_2 _ H).
  rewrite bool_decide_eq_false_2; [done|].
  intros ->.
  by apply elem_of_cons in H as [?|[?|?%elem_of_nil]%elem_of_cons].
Qed.

Lemma retarget_categorize ref_id (r : dict) :
  retarget "categorize" ref_id r
  = delete "to" (<["ref_id" := ref_id]> (<["to" := ref_id]> r)).
Proof. done. Qed.

(** One rule there and back: the schema form of a canonical spec rule is
    a rule the derivation reads, finds well-formed and takes back to the
    tuple it came from, when the lookup by ref_id answers its group. *)
Lemma round_trip_rule (s : Schema loc) (r : dict) ty group ref_id :
  canonical_spec_rule r →
  r !! "type" = Some (VStr ty) →
  spec_group_name r = Some group →
  condition_ok r = true →
  truthy ref_id = true →
  _get_name_by_ref_id ref_id s = group →
  rule_shaped (schema_form (lower ty) ref_id r) = true
  ∧ rule_fields_ok (schema_form (lower ty) ref_id r) = true
  ∧ rule_tuple (derived_rule s (schema_form (lower ty) ref_id r))
    = rule_tuple r.
Proof.
  intros ((to & Hto & Htrue) & (ty' & Hty' & Hkind) & Hscalar & Hclauses)
         Hty Hgroup Hcond Hid Hname.
  rewrite Hty in Hty'. injection Hty' as <-.
  assert (group = to) as ->.
  { unfold spec_group_name in Hgroup. rewrite Hto, Htrue in Hgroup.
    by injection Hgroup. }
  set (r' := schema_form (lower ty) ref_id r).
  assert (Hfields : ∀ key, key ∈ _single_item_list_keys →
            r' !! key = to_single_item_list key <$> r !! key).
  { intros key [-> | ->]%single_item_list_key_cases; unfold r';
      by rewrite schema_form_lookup, retarget_lookup_ne. }
  assert (Hcondition : r' !! "condition"
                       = map_condition_value wrap_items <$> r !! "condition").
  { unfold r', schema_form.
    rewrite map_condition_lookup, wrap_items_lookup, retarget_lookup_ne
      by done.
    by rewrite to_single_item_list_other by not_a_key. }
  assert (Hrefs : schema_reference r' = Some ref_id
                  ∧ renamed to r' !! "type" = Some (VStr ty)).
  { unfold schema_reference, renamed, dict_get, r'.
    rewrite !schema_form_lookup by done.
    rewrite !to_single_item_list_other by not_a_key.
    destruct Hkind as [[-> Href]|Hcat].
    - rewrite !retarget_filter by (by left).
      rewrite !lookup_insert_ne by done.
      fold (dict_get r "ref_id"). rewrite Href.
      rewrite lookup_insert_eq. split; [done|].
      rewrite lookup_insert_ne by done.
      rewrite schema_form_lookup, to_single_item_list_other by
        (done || not_a_key).
      rewrite retarget_filter by (by left).
      by rewrite lookup_insert_ne, lookup_insert_eq.
    - rewrite Hcat, !retarget_categorize.
      rewrite lookup_delete_ne, !lookup_insert_eq by done.
      cbn [default id]. rewrite Hid. split; [done|].
      rewrite lookup_insert_ne, lookup_delete_ne by done.
      rewrite schema_form_lookup, to_single_item_list_other by
        (done || not_a_key).
      rewrite retarget_categorize.
      by rewrite lookup_delete_ne, !lookup_insert_ne by done. }
  destruct Hrefs as [Href Htype].
  split; [|split].
  - unfold rule_shaped. rewrite Href, bool_decide_eq_true_2 by eauto.
    unfold r', schema_form. apply condition_ok_map_condition.
    rewrite <-Hcond. apply condition_ok_ext, schema_form_condition.
  - unfold rule_fields_ok. apply andb_true_iff. split.
    + by apply (fields_ok_wrap_lookup r).
    + unfold clauses_all, r'. rewrite clauses_of_schema_form.
      unfold clauses_all in Hclauses.
      induction (clauses_of r) as [|v l IH]; [done|].
      cbn in *. apply andb_prop in Hclauses as [Hv Hl].
      rewrite IH by done. destruct v as [| | | |c]; try done. cbn.
      rewrite andb_true_r.
      apply (fields_ok_wrap_lookup c); [done|].
      intros key _. apply wrap_items_lookup.
  - unfold derived_rule. rewrite Href, Hname. unfold rule_tuple.
    f_equal; [f_equal; [f_equal; [f_equal|]|]|].
    + rewrite spec_form_lookup, from_single_item_list_other
        by (done || not_a_key).
      by rewrite Htype.
    + rewrite spec_form_lookup, from_single_item_list_other
        by (done || not_a_key).
      unfold renamed. by rewrite lookup_insert_eq.
    + rewrite spec_form_lookup, renamed_lookup_ne by done.
      rewrite Hfields by (by left).
      destruct (r !! "field") as [v|] eqn:Hv; [|done]. cbn. f_equal.
      apply from_to_single_item_list. intros Hk.
      by eapply fields_scalar_lookup.
    + rewrite spec_form_lookup, renamed_lookup_ne by done.
      rewrite Hfields by (right; by left).
      destruct (r !! "tag_field") as [v|] eqn:Hv; [|done]. cbn. f_equal.
      apply from_to_single_item_list. intros Hk.
      by eapply fields_scalar_lookup.
    + unfold spec_form.
      rewrite map_condition_lookup, unwrap_dict_lookup, renamed_lookup_ne
        by done.
      rewrite from_single_item_list_other by not_a_key.
      rewrite Hcondition.
      destruct (r !! "condition") as [v|] eqn:Hv; [|done]. cbn. f_equal.
      apply unwrap_wrap_condition.
      unfold clauses_all, clauses_of, dict_get in Hclauses.
      by rewrite Hv in Hclauses.
Qed.

(** C1, as amended (round trip).  For a spec whose rules are distinct
    objects in the documented spec form (the group's name under ['to'];
    type "filter", or "categorize" in any case of letters; bare values
    under ['field'] and ['tag_field'], in rules and clauses) and a schema
    in which no two groups other than "Other" share a ref_id: if the spec
    is applied without error, deriving a spec from the resulting schema
    returns, and its rules are those of the original spec, compared as
    tuples of type, group name, field and condition: the two lists of
    tuples are equal, rule by rule in their order, and so they are equal
    as sets; the order of the constants plays no part. *)
Theorem round_trip_of_canonical_specs (spec : Spec loc) (w : World) :
  NoDup (spec_rules spec) →
  NoDup (item_ref_id <$> registry (schema w)) →
  Forall (λ l, canonical_spec_rule (obj w l)) (spec_rules spec) →
  round_trip_in_order spec w ∧ round_trip spec w.
Proof.
  intros Hnd Hreg Hcanon.
  assert (Hord : round_trip_in_order spec w); [|split; [exact Hord|]].
  2:{ intros w1 Hrun. destruct (Hord w1 Hrun) as (spec' & Hderived & Heq).
      exists spec'. split; [exact Hderived|]. intros t. by rewrite Heq. }
  intros w1 Hrun.
  destruct (_schema_from_spec_ok spec w w1 Hnd Hrun)
    as (Hrules & _ & _ & _ & _ & Hreg1 & Hall).
  specialize (Hreg1 Hreg).
  assert (Hback : Forall (λ l,
            rule_shaped (obj w1 l) = true
            ∧ rule_fields_ok (obj w1 l) = true
            ∧ rule_tuple (derived_rule (schema w1) (obj w1 l))
              = rule_tuple (obj w l)) (spec_rules spec)).
  { apply Forall_forall. intros l Hl.
    rewrite Forall_forall in Hcanon, Hall.
    destruct (Hall l Hl)
      as (ty & group & ref_id & Hty & _ & Hgroup & Hcond & Hobj & Htrue
          & item & Hitem & Href & Hname).
    rewrite Hobj.
    apply (round_trip_rule _ _ ty group ref_id); auto.
    rewrite <-Href, <-Hname. by apply _get_name_by_ref_id_registry. }
  rewrite _spec_from_schema_run; rewrite Hrules; [|done|].
  2:{ eapply Forall_impl; [exact Hback|]. by intros l (? & _). }
  rewrite forallb_Forall_true.
  2:{ eapply Forall_impl; [exact Hback|]. by intros l (_ & ? & _). }
  eexists. split; [done|]. cbn [spec_rules].
  assert (Heq : rule_tuple
                  <$> ((λ l, derived_rule (schema w1) (obj w1 l))
                         <$> spec_rules spec)
                = (λ l, rule_tuple (obj w l)) <$> spec_rules spec).
  { rewrite <-list_fmap_compose. apply Forall_fmap_ext.
    eapply Forall_impl; [exact Hback|]. by intros l (_ & _ & ?). }
  exact Heq.
Qed.

Lemma round_trip_of_canonical_specs_witness :
  ∃ spec' : Spec dict,
    _spec_from_schema scenario_A_result = Ok spec'
    ∧ rule_tuple <$> spec_rules spec'
      = (λ l, rule_tuple (obj scenario_A_world l))
          <$> spec_rules scenario_A_spec.
Proof.
  destruct (round_trip_of_canonical_specs scenario_A_spec scenario_A_world)
    as [Hord _].
  - apply NoDup_singleton.
  - vm_compute. constructor.
  - constructor; [|constructor].
    split; [exists (VStr "prod"); by vm_compute|].
    split; [|by vm_compute].
    exists "filter". split; [by vm_compute|]. left. by vm_compute.
  - apply Hord. vm_compute. reflexivity.
Defined.

(** C1, as stated, fails: "search" is accepted for "filter" and is
    rewritten to it, so a rule of type "search" comes back from the round
    trip with type "filter", and the tuple of the original rule is not
    among those of the derived spec. *)
Lemma round_trip_loses_search :
  ¬ round_trip search_spec search_world.
Proof.
  intros H.
  destruct (H search_result) as (spec' & Hderived & Hsame).
  { vm_compute. reflexivity. }
  assert (Hval : _spec_from_schema search_result
                 = Ok (mkSpec (VStr "Env") (Some (VStr "true"))
                         [<["type" := VStr "filter"]>
                            (<["field" := VStr "env"]>
                               (<["to" := VStr "prod"]> ∅))]))
    by (vm_compute; reflexivity).
  rewrite Hval in Hderived. injection Hderived as <-.
  destruct (Hsame (rule_tuple search_rule)) as [_ Hback].
  cbn [spec_rules] in Hback.
  assert (Hin : rule_tuple search_rule
                ∈ (λ l, rule_tuple (obj search_world l))
                    <$> spec_rules search_spec)
    by (vm_compute; apply list_elem_of_here).
  specialize (Hback Hin).
  apply list_elem_of_fmap in Hback as (r & Heq & Hr).
  apply list_elem_of_singleton in Hr. subst r.
  vm_compute in Heq. discriminate Heq.
Qed.

(** * Further properties *)

(** ** What a run leaves alone, whatever its outcome *)

Section Preserves.
Context (P : World → World → Prop) `{!Reflexive P, !Transitive P}.

Lemma preserves_ret {A} (a : A) : preserves P (mret a).
Proof. intros w. reflexivity. Qed.

Lemma preserves_raise {A} (e : exn) : preserves P (raise e : M A).
Proof. intros w. reflexivity. Qed.

Lemma preserves_bind {A B} (m : M A) (k : A → M B) :
  preserves P m → (∀ a, preserves P (k a)) → preserves P (m ≫= k).
Proof.
  intros Hm Hk w. unfold mbind, ST_bind, bind.
  specialize (Hm w). destruct (m w) as [[a| |] w1]; cbn in *; [|done..].
  etrans; [exact Hm|apply Hk].
Qed.

Lemma preserves_getitem l k : preserves P (getitem l k).
Proof. intros w. unfold getitem. destruct (_ !! k); reflexivity. Qed.

Lemma preserves_get l k : preserves P (get l k).
Proof. intros w. reflexivity. Qed.

Lemma preserves_get_world : preserves P get_world.
Proof. intros w. reflexivity. Qed.

Lemma preserves_modify (f : World → World) :
  (∀ w, P w (f w)) → preserves P (modify f).
Proof. intros Hf w. apply Hf. Qed.

Lemma preserves_for_each {A} (l : list A) (body : A → M unit) :
  (∀ x, x ∈ l → preserves P (body x)) → preserves P (for_each l body).
Proof.
  induction l as [|x l IH]; intros Hbody; [apply preserves_ret|].
  cbn [for_each]. apply preserves_bind.
  - apply Hbody. by left.
  - intros _. apply IH. intros y Hy. apply Hbody. by right.
Qed.

(** The operations on one rule object, for a [P] that does not look at
    that object. *)
Context (rule : loc) (Hheap : ∀ w d, P w (set_heap <[rule := d]> w)).

Lemma preserves_setitem k v : preserves P (setitem rule k v).
Proof. intros w. apply Hheap. Qed.

Lemma preserves_delitem k : preserves P (delitem rule k).
Proof.
  intros w. unfold delitem. destruct (_ !! k); [apply Hheap|reflexivity].
Qed.

Lemma preserves_for_items body : preserves P (for_items rule body).
Proof.
  intros w. unfold for_items. destruct (body _); [reflexivity|apply Hheap].
Qed.

Lemma preserves_for_clauses body : preserves P (for_clauses rule body).
Proof.
  unfold for_clauses. apply preserves_bind; [apply preserves_get|].
  intros condition. destruct (truthy condition); [|apply preserves_ret].
  destruct (subscript condition "clauses") as [e|[| |s|clauses|d]];
    try apply preserves_raise.
  - destruct (bool_decide (s = ""));
      [apply preserves_ret|apply preserves_raise].
  - destruct (map_clauses body clauses) as [done e].
    apply preserves_bind.
    + destruct condition; try apply preserves_ret. apply preserves_setitem.
    + intros _. destruct e; [apply preserves_raise|apply preserves_ret].
  - destruct (bool_decide (d = ∅));
      [apply preserves_ret|apply preserves_raise].
Qed.

(** [_spec_rule_to_schema] keeps what the registry and the list of rules
    keep. *)
Lemma preserves__spec_rule_to_schema :
  (∀ constant_name constant_type,
      preserves P (_add_constant constant_name constant_type)) →
  preserves P (_add_rule rule) →
  preserves P (_spec_rule_to_schema rule).
Proof.
  intros Hconst Hrule. unfold _spec_rule_to_schema.
  apply preserves_bind; [apply preserves_getitem|]. intros to.
  apply preserves_bind.
  { destruct (truthy to); [apply preserves_ret|apply preserves_getitem]. }
  intros constant_name.
  apply preserves_bind; [apply preserves_getitem|]. intros type.
  apply preserves_bind.
  { destruct type; try apply preserves_raise. apply preserves_ret. }
  intros rule_type. apply preserves_bind.
  { destruct (bool_decide (rule_type ∈ ["filter"; "search"])).
    - apply preserves_bind; [apply preserves_setitem|].
      intros _. apply preserves_ret.
    - destruct (bool_decide (rule_type = "categorize"));
        [apply preserves_ret|apply preserves_raise]. }
  intros constant_type.
  apply preserves_bind; [apply Hconst|]. intros ref_id.
  apply preserves_bind; [apply preserves_setitem|]. intros _.
  apply preserves_bind.
  { destruct (bool_decide (rule_type = "categorize"));
      [|apply preserves_ret].
    apply preserves_bind; [apply preserves_getitem|]. intros to'.
    apply preserves_bind; [apply preserves_setitem|]. intros _.
    apply preserves_delitem. }
  intros _. apply preserves_bind; [apply preserves_for_items|]. intros _.
  apply preserves_bind; [apply preserves_for_clauses|]. intros _.
  apply Hrule.
Qed.
End Preserves.


#[local] Instance grown_constant_refl : Reflexive grown_constant.
Proof. intros c. by split. Qed.

#[local] Instance grown_constant_trans : Transitive grown_constant.
Proof.
  intros c1 c2 c3 [Ht1 Hl1] [Ht2 Hl2]. split; [congruence|by etrans].
Qed.

#[local] Instance extends_constants_refl : Reflexive extends_constants.
Proof.
  intros cs. exists cs, []. split; [by rewrite app_nil_r|].
  by apply Forall_Forall2_diag, Forall_forall.
Qed.

#[local] Instance extends_constants_trans : Transitive extends_constants.
Proof.
  intros cs cs' cs'' (cs1 & cs2 & -> & H1) (ds1 & ds2 & -> & H2).
  apply Forall2_app_inv_l in H2 as (ds1a & ds1b & Ha & Hb & ->).
  exists ds1a, (ds1b ++ ds2). split; [by rewrite (assoc_L (++))|].
  by etrans.
Qed.

#[local] Instance evolves_refl ls : Reflexive (evolves ls).
Proof. intros w. repeat split; auto. reflexivity. Qed.

#[local] Instance evolves_trans ls : Transitive (evolves ls).
Proof.
  intros w1 w2 w3 (Hm & Hi & Hu & Hc & He & Hn & Hh)
                  (Hm' & Hi' & Hu' & Hc' & He' & Hn' & Hh').
  split; [congruence|]. split; [congruence|]. split; [congruence|].
  split; [lia|]. split; [by etrans|]. split; [auto|].
  intros l Hl. by rewrite Hh', Hh.
Qed.

(** A change the invariant cannot see: the name, the flag, the rules, or
    a rule object of the run. *)
Lemma evolves_unseen ls (w w' : World) :
  merges (schema w') = merges (schema w) →
  self w' = mkPerspective (_new_ref_id (self w)) (_id (self w))
              (_uri (self w)) (_schema (self w')) →
  constants (schema w') = constants (schema w) →
  (∀ l, l ∉ ls → heap w' !! l = heap w !! l) →
  evolves ls w w'.
Proof.
  intros Hm Hself Hcs Hheap. unfold evolves, schema, existing_ref_ids in *.
  rewrite Hself in *. cbn [_new_ref_id _id _uri _schema] in *. rewrite Hcs.
  repeat split; auto. reflexivity.
Qed.

Lemma evolves_set_heap ls rule (w : World) d :
  rule ∈ ls → evolves ls w (set_heap <[rule := d]> w).
Proof.
  intros Hin. apply evolves_unseen; try done.
  - by destruct w as [h []].
  - intros l Hl. cbn. apply lookup_insert_ne. by intros ->.
Qed.

Lemma evolves_set_schema ls (f : Schema loc → Schema loc) (w : World) :
  (∀ s, merges (f s) = merges s) →
  (∀ s, constants (f s) = constants s) →
  evolves ls w (set_schema f w).
Proof. intros Hm Hc. apply evolves_unseen; cbn; auto. Qed.

(** The allocator takes part in nothing but the counter. *)
Lemma evolves__get_new_ref_id ls : preserves (evolves ls) _get_new_ref_id.
Proof.
  intros w. destruct (_get_new_ref_id_returns w) as (n & -> & Hn & _).
  cbn [snd]. unfold evolves. cbn. repeat split; auto; [lia|reflexivity].
Qed.

(** [_add_constant], for any name and kind. *)
Lemma evolves__add_constant ls constant_name constant_type :
  preserves (evolves ls) (_add_constant constant_name constant_type).
Proof.
  intros w.
  destruct (truthy (_get_ref_id_by_name constant_name (schema w)))
    eqn:Hfound.
  { rewrite _add_constant_found by done. reflexivity. }
  destruct (_add_constant_new constant_name constant_type w Hfound)
    as (n & l1 & l2 & c & Hcs & Hc & _ & Hn & Hfree & ->).
  cbn [snd]. set (new := mkItem (VStr (str n)) constant_name None) in *.
  set (f := λ constant : Constant,
          if bool_decide (const_type constant ∈ constant_types)
          then item_ref_id <$> const_list constant else []).
  assert (Hold : existing_ref_ids (schema w)
                 = flat_map f l1 ++ f c ++ flat_map f l2
                 ∧ extends_constants (constants (schema w))
                     (l1 ++ list_append new c :: l2)).
  { unfold existing_ref_ids. fold f.
    destruct Hcs as [Hcs|(Hcs & Hcnew & Hl2)]; rewrite Hcs.
    - split; [by rewrite flat_map_app|].
      exists (l1 ++ list_append new c :: l2), [].
      split; [by rewrite app_nil_r|].
      apply Forall2_app; [by apply Forall_Forall2_diag, Forall_forall|].
      constructor; [|by apply Forall_Forall2_diag, Forall_forall].
      split; [done|]. by exists [new].
    - rewrite Hl2, Hcnew. split.
      { assert (Hf : f (mkConstant constant_type []) = [])
          by (unfold f; cbn; by case_bool_decide).
        rewrite Hf. cbn. by rewrite !app_nil_r. }
      exists l1, [list_append new (mkConstant constant_type [])].
      split; [done|]. by apply Forall_Forall2_diag, Forall_forall. }
  destruct Hold as [Hold Hext].
  unfold evolves. cbn. split; [done|]. split; [done|]. split; [done|].
  split; [lia|]. split; [done|]. split; [|done].
  unfold existing_ref_ids in *. fold f in Hold, Hfree |- *. cbn.
  rewrite Hold in *. rewrite flat_map_app. cbn [flat_map].
  assert (Hfc : f (list_append new c)
                = if bool_decide (const_type c ∈ constant_types)
                  then f c ++ [VStr (str n)] else f c).
  { unfold f. cbn. case_bool_decide; [|done]. by rewrite fmap_app. }
  rewrite Hfc. case_bool_decide; [|done]. intros Hnd.
  rewrite <-(assoc_L (++) (f c)). cbn.
  rewrite (assoc_L (++) (flat_map f l1) (f c)), <-Permutation_middle.
  rewrite <-(assoc_L (++)). by constructor.
Qed.

(** One spec rule, whatever becomes of it. *)
Lemma evolves__spec_rule_to_schema ls (rule : loc) :
  rule ∈ ls → preserves (evolves ls) (_spec_rule_to_schema rule).
Proof.
  intros Hin. apply preserves__spec_rule_to_schema; try apply _.
  - intros w d. by apply evolves_set_heap.
  - intros cn ct. apply evolves__add_constant.
  - intros w. by apply evolves_set_schema.
Qed.

(** A spec, whatever becomes of it. *)
Lemma evolves__schema_from_spec (spec : Spec loc) :
  preserves (evolves (spec_rules spec)) (_schema_from_spec spec).
Proof.
  unfold _schema_from_spec.
  apply preserves_bind; [apply _| |].
  { apply preserves_modify. intros w. by apply evolves_set_schema. }
  intros _. apply preserves_bind; [apply _| |].
  { destruct (truthy _); [|by apply preserves_ret].
    destruct (spec_include_in_reports spec);
      [|by apply preserves_raise].
    apply preserves_modify. intros w. by apply evolves_set_schema. }
  intros _. apply preserves_bind; [apply _| |].
  { apply preserves_modify. intros w. by apply evolves_set_schema. }
  intros _. apply preserves_for_each; [apply _..|].
  intros rule Hrule. by apply evolves__spec_rule_to_schema.
Qed.


(** X1.  Whatever a spec is and whether its application returns or
    raises, the constants of the schema are only extended: every
    constant that was there is still there, in its place and with its
    type, its items are still there in their order, and what is new has
    been appended. *)
Theorem _schema_from_spec_only_extends_constants (spec : Spec loc)
    (w : World) :
  extends_constants (constants (schema w))
                    (constants (schema (_schema_from_spec spec w).2)).
Proof. apply (evolves__schema_from_spec spec w). Qed.

(** X2.  Whatever the outcome of applying a spec, ref_ids that were
    unique across the 'Static Group' and 'Dynamic Group Block' constants
    of the schema (the "Other" items included) still are. *)
Theorem _schema_from_spec_keeps_ref_ids_unique (spec : Spec loc) (w : World) :
  NoDup (existing_ref_ids (schema w)) →
  NoDup (existing_ref_ids (schema (_schema_from_spec spec w).2)).
Proof. apply (evolves__schema_from_spec spec w). Qed.

Lemma _schema_from_spec_keeps_ref_ids_unique_witness :
  NoDup (existing_ref_ids (schema scenario_A_result)).
Proof.
  apply (_schema_from_spec_keeps_ref_ids_unique scenario_A_spec
           scenario_A_world).
  vm_compute. apply NoDup_singleton.
Defined.

(** X3.  Whatever the outcome of applying a spec, ['merges'], the id and
    the uri of the perspective are what they were, and the counter of the
    allocator has not gone down. *)
Theorem _schema_from_spec_leaves_the_rest (spec : Spec loc) (w : World) :
  let w' := (_schema_from_spec spec w).2 in
  merges (schema w') = merges (schema w)
  ∧ _id (self w') = _id (self w)
  ∧ _uri (self w') = _uri (self w)
  ∧ (_new_ref_id (self w) ≤ _new_ref_id (self w'))%N.
Proof.
  destruct (evolves__schema_from_spec spec w) as (? & ? & ? & ? & _).
  by cbv zeta.
Qed.

(** X4.  Rule objects are held with their condition and its clauses
    inside them, so this is about rule objects that share no condition
    or clause dictionary with another object.  For such objects, and
    whatever the outcome of applying a spec, no rule object other than
    those the spec lists has been written to: it holds what it held. *)
Theorem _schema_from_spec_writes_its_rules_only (spec : Spec loc)
    (w : World) (l : loc) :
  l ∉ spec_rules spec →
  heap (_schema_from_spec spec w).2 !! l = heap w !! l.
Proof.
  destruct (evolves__schema_from_spec spec w) as (_ & _ & _ & _ & _ & _ & H).
  apply H.
Qed.

Lemma _schema_from_spec_writes_its_rules_only_witness :
  let w := set_heap (insert 1 scenario_A_rule) scenario_A_world in
  heap (_schema_from_spec scenario_A_spec w).2 !! 1 = heap w !! 1.
Proof.
  intros w. apply _schema_from_spec_writes_its_rules_only.
  intros H%list_elem_of_singleton. discriminate H.
Defined.


(** ** The allocator and the registry *)

Lemma _get_new_ref_id_loop_least fuel :
  ∀ (w w' : World) (n : N),
    _get_new_ref_id_loop fuel w = (Ok (VStr (str n)), w') →
    ∀ m, (_new_ref_id (self w) < m < n)%N →
         VStr (str m) ∈ existing_ref_ids (schema w).
Proof.
  induction fuel as [|fuel IH]; intros w w' n Hrun m Hm; [done|].
  cbn [_get_new_ref_id_loop] in Hrun.
  unfold mbind, ST_bind, bind, modify, get_world in Hrun. cbn [fst snd] in Hrun.
  set (c := (_new_ref_id (self w) + 1)%N) in *.
  change (schema (set_new_ref_id c w)) with (schema w) in Hrun.
  change (_new_ref_id (self (set_new_ref_id c w))) with c in Hrun.
  case_bool_decide as Hin.
  - injection Hrun as Heq%str_inj _. lia.
  - destruct (decide (m = c)) as [->|Hne]; [done|].
    apply (IH (set_new_ref_id c w) w' n Hrun). cbn. lia.
Qed.

(** X5.  The allocator returns, with nothing changed but the counter, the
    numeral of the least number above the counter that no item of a
    constant of type 'Static Group' or 'Dynamic Group Block' has for
    ref_id: no such item has the numeral returned, and for every number
    between the counter and the one returned some such item has its
    numeral.  The counter is left at the number returned. *)
Theorem _get_new_ref_id_least_free (w : World) :
  ∃ n : N,
    _get_new_ref_id w = (Ok (VStr (str n)), set_new_ref_id n w)
    ∧ (_new_ref_id (self w) < n)%N
    ∧ (∀ constant item,
         constant ∈ constants (schema w) →
         const_type constant = "Static Group"
         ∨ const_type constant = "Dynamic Group Block" →
         item ∈ const_list constant →
         item_ref_id item ≠ VStr (str n))
    ∧ ∀ m, (_new_ref_id (self w) < m < n)%N →
           ∃ constant item,
             constant ∈ constants (schema w)
             ∧ (const_type constant = "Static Group"
                ∨ const_type constant = "Dynamic Group Block")
             ∧ item ∈ const_list constant
             ∧ item_ref_id item = VStr (str m).
Proof.
  destruct (_get_new_ref_id_returns w) as (n & Hrun & Hn & Hfree).
  exists n. split; [done|]. split; [done|]. split.
  - intros constant item Hc Hty Hitem Heq. apply Hfree.
    apply elem_of_existing_ref_ids. exists constant, item. auto.
  - intros m Hm. apply elem_of_existing_ref_ids.
    unfold _get_new_ref_id, mbind, ST_bind, bind, get_world in Hrun.
    by eapply _get_new_ref_id_loop_least.
Qed.

(** X6.  In a schema whose groups other than "Other" have distinct
    ref_ids, the two lookups agree: the ref_id found for a name, when
    it is true, is resolved back to that name. *)
Theorem lookup_by_name_then_by_ref_id (s : Schema loc) (constant_name : value) :
  NoDup (item_ref_id <$> registry s) →
  truthy (_get_ref_id_by_name constant_name s) = true →
  _get_name_by_ref_id (_get_ref_id_by_name constant_name s) s
  = constant_name.
Proof.
  intros Hnd Hfound.
  destruct (_get_ref_id_by_name_found constant_name s Hfound)
    as (item & Hin & <- & <-).
  by apply _get_name_by_ref_id_registry.
Qed.

Lemma lookup_by_name_then_by_ref_id_witness :
  _get_name_by_ref_id
    (_get_ref_id_by_name (VStr "prod") (schema scenario_D_world))
    (schema scenario_D_world)
  = VStr "prod".
Proof.
  apply lookup_by_name_then_by_ref_id.
  - vm_compute. apply NoDup_singleton.
  - vm_compute. reflexivity.
Defined.

(** X7.  The items flagged as "Other" do not count for the lookups: a
    value that is neither the name nor the ref_id of an item that is not
    flagged is resolved to [None] either way. *)
Theorem lookups_skip_other (s : Schema loc) (v : value) :
  (∀ item, item ∈ group_items s →
           truthy (default VNone (item_is_other item)) = false →
           item_name item ≠ v ∧ item_ref_id item ≠ v) →
  _get_ref_id_by_name v s = VNone ∧ _get_name_by_ref_id v s = VNone.
Proof.
  intros Hnone. unfold _get_ref_id_by_name, _get_name_by_ref_id. split.
  - destruct (List.find _ _) as [item|] eqn:Hfind; [|done]. exfalso.
    apply find_some in Hfind as [Hin [Heq Hother]%andb_prop].
    apply bool_decide_eq_true in Heq. apply list_elem_of_In in Hin.
    apply negb_true_iff in Hother. by destruct (Hnone item Hin Hother).
  - destruct (List.find _ _) as [item|] eqn:Hfind; [|done]. exfalso.
    apply find_some in Hfind as [Hin [Heq Hother]%andb_prop].
    apply bool_decide_eq_true in Heq. apply list_elem_of_In in Hin.
    apply negb_true_iff in Hother. by destruct (Hnone item Hin Hother).
Qed.

Lemma lookups_skip_other_witness :
  _get_ref_id_by_name (VStr "Other") default_schema = VNone
  ∧ _get_name_by_ref_id (VStr "Other") default_schema = VNone.
Proof.
  apply lookups_skip_other.
  intros item Hin Hother. vm_compute in Hin.
  apply list_elem_of_singleton in Hin. subst item. discriminate Hother.
Defined.

(** X8.  [_add_constant] with one of the two kinds the lookups scan never
    raises and returns a true ref_id; when the ref_ids of the groups were
    distinct, that ref_id is resolved to the name it was asked for in the
    schema it leaves. *)
Theorem _add_constant_then_lookup (w : World) (constant_name : value)
    (constant_type : string) :
  constant_type ∈ constant_types →
  ∃ (ref_id : value) (w' : World),
    _add_constant constant_name constant_type w = (Ok ref_id, w')
    ∧ truthy ref_id = true
    ∧ (NoDup (item_ref_id <$> registry (schema w)) →
       _get_name_by_ref_id ref_id (schema w') = constant_name).
Proof.
  intros Hty.
  destruct (_add_constant_spec constant_name constant_type w Hty)
    as (ref_id & cs & n & Hrun & _ & (item & Hin & <- & <-) & Hnd' & Htrue).
  eexists _, _. split; [exact Hrun|]. split; [done|]. intros Hnd.
  apply _get_name_by_ref_id_registry; [by apply Hnd'|done].
Qed.

Lemma _add_constant_then_lookup_witness :
  ∃ (ref_id : value) (w' : World),
    _add_constant (VStr "prod") "Static Group" fresh_world = (Ok ref_id, w')
    ∧ truthy ref_id = true
    ∧ _get_name_by_ref_id ref_id (schema w') = VStr "prod".
Proof.
  destruct (_add_constant_then_lookup fresh_world (VStr "prod")
              "Static Group")
    as (ref_id & w' & Hrun & Htrue & Hname).
  - apply list_elem_of_here.
  - exists ref_id, w'. split; [exact Hrun|]. split; [exact Htrue|].
    apply Hname. vm_compute. constructor.
Defined.


(** ** One spec rule, and a spec *)

(** X9.  A spec rule is translated without error exactly when it names
    its group (['to'] is there and is true, or else ['ref_id'] is there),
    its ['type'] is a string that is filter, search or categorize in some
    case of letters, and its condition is absent, not true, or has for
    ['clauses'] a list of dictionaries (or nothing to iterate over). *)
Theorem _spec_rule_to_schema_returns_iff (rule : loc) (w : World) :
  (∃ w', _spec_rule_to_schema rule w = (Ok tt, w'))
  ↔ ∃ group ty constant_type,
      spec_group_name (obj w rule) = Some group
      ∧ obj w rule !! "type" = Some (VStr ty)
      ∧ rule_constant_type (lower ty) = Some constant_type
      ∧ condition_ok (obj w rule) = true.
Proof.
  split.
  - intros [w' Hrun]. by eapply _spec_rule_to_schema_inv.
  - intros (group & ty & ct & Hgroup & Hty & Hct & Hcond).
    destruct (_spec_rule_to_schema_ok rule w group ty ct Hgroup Hty Hct Hcond)
      as (ref_id & cs & n & Hrun & _).
    eauto.
Qed.

(** X10.  A rule that names its group but whose type is none of filter,
    search and categorize raises the unknown type error, and nothing has
    changed: no group has been registered, the rule object is as it
    was. *)
Theorem unknown_rule_type_raises (rule : loc) (w : World) group ty :
  spec_group_name (obj w rule) = Some group →
  obj w rule !! "type" = Some (VStr ty) →
  rule_constant_type (lower ty) = None →
  _spec_rule_to_schema rule w = (Raise (RuntimeError UnknownRuleType), w).
Proof.
  intros Hgroup Hty Hct.
  unfold spec_group_name in Hgroup.
  destruct (obj w rule !! "to") as [to|] eqn:Hto; [|done].
  assert (Hcn : (if truthy to then mret to else getitem rule "ref_id") w
                = (Ok group, w)).
  { destruct (truthy to); [by simplify_eq|].
    unfold getitem. by rewrite Hgroup. }
  unfold rule_constant_type in Hct.
  unfold _spec_rule_to_schema, mbind, ST_bind, bind.
  unfold getitem at 1. rewrite Hto, Hcn.
  unfold getitem at 1. rewrite Hty.
  cbn [str_lower]. unfold mret at 1, ST_ret, ret.
  by repeat case_bool_decide.
Qed.

Lemma unknown_rule_type_raises_witness :
  let w := mkWorld {[0 := <["type" := VStr "regex"]>
                            (<["to" := VStr "prod"]> ∅)]} new_perspective in
  _spec_rule_to_schema 0 w = (Raise (RuntimeError UnknownRuleType), w).
Proof.
  apply (unknown_rule_type_raises 0 _ (VStr "prod") "regex");
    vm_compute; reflexivity.
Defined.

Lemma rules_to_schema_fields (ls : list loc) :
  ∀ w w' : World,
    for_each ls _spec_rule_to_schema w = (Ok tt, w') →
    rules (schema w') = rules (schema w) ++ ls
    ∧ name (schema w') = name (schema w)
    ∧ include_in_reports (schema w') = include_in_reports (schema w).
Proof.
  induction ls as [|l ls IH]; intros w w' Hrun.
  { cbn in Hrun. injection Hrun as <-. by rewrite app_nil_r. }
  apply for_each_cons_ok in Hrun as (w1 & Hfirst & Hrest).
  destruct (_spec_rule_to_schema_inv l w w1 Hfirst)
    as (cn & ty & ct & Hname & Hty & Hct & Hcond).
  destruct (_spec_rule_to_schema_ok l w cn ty ct Hname Hty Hct Hcond)
    as (ref_id & cs & n & Hrun & _).
  rewrite Hfirst in Hrun. injection Hrun as ->.
  destruct (IH _ _ Hrest) as (-> & -> & ->).
  cbn. by rewrite <-(assoc_L (++)).
Qed.

(** X11.  When the application of a spec returns, the schema has the name
    of the spec, its rules are exactly the rule objects of the spec in
    their order (the rules it had are gone), and its include_in_reports
    is that of the spec if that is a true value and is otherwise what it
    was. *)
Theorem _schema_from_spec_replaces (spec : Spec loc) (w w' : World) :
  _schema_from_spec spec w = (Ok tt, w') →
  name (schema w') = spec_name spec
  ∧ rules (schema w') = spec_rules spec
  ∧ include_in_reports (schema w')
    = (if truthy (default VNone (spec_include_in_reports spec))
       then default VNone (spec_include_in_reports spec)
       else include_in_reports (schema w)).
Proof.
  rewrite _schema_from_spec_unfold. intros Hrun.
  destruct (rules_to_schema_fields _ _ _ Hrun) as (-> & -> & ->).
  unfold before_rules. cbn.
  split; [|split; [done|]]; by destruct (truthy _).
Qed.

Lemma _schema_from_spec_replaces_witness :
  name (schema scenario_A_result) = spec_name scenario_A_spec
  ∧ rules (schema scenario_A_result) = spec_rules scenario_A_spec
  ∧ include_in_reports (schema scenario_A_result)
    = (if truthy (default VNone (spec_include_in_reports scenario_A_spec))
       then default VNone (spec_include_in_reports scenario_A_spec)
       else include_in_reports (schema scenario_A_world)).
Proof.
  apply _schema_from_spec_replaces. vm_compute. reflexivity.
Defined.

(** X12.  When a spec whose rules are distinct objects has been applied,
    every key of a rule other than ['type'], ['to'], ['ref_id'],
    ['field'], ['tag_field'] and ['condition'] holds what it held. *)
Theorem spec_rules_keep_their_other_keys (spec : Spec loc) (w w' : World)
    (l : loc) (k : string) :
  NoDup (spec_rules spec) →
  _schema_from_spec spec w = (Ok tt, w') →
  l ∈ spec_rules spec →
  k ∉ ["type"; "to"; "ref_id"; "field"; "tag_field"; "condition"] →
  obj w' l !! k = obj w l !! k.
Proof.
  intros Hnd Hrun Hl Hk.
  destruct (_schema_from_spec_ok spec w w' Hnd Hrun)
    as (_ & _ & _ & _ & _ & _ & Hall).
  rewrite Forall_forall in Hall.
  destruct (Hall l Hl) as (ty & group & ref_id & _ & _ & _ & _ & -> & _).
  rewrite !not_elem_of_cons in Hk.
  destruct Hk as (? & ? & ? & ? & ? & ? & _).
  rewrite schema_form_lookup, retarget_lookup_ne by done.
  apply to_single_item_list_other.
  by intros [?|?]%single_item_list_key_cases.
Qed.

Lemma spec_rules_keep_their_other_keys_witness :
  let w := set_heap (insert 0 (<["asset" := VStr "AwsAsset"]> scenario_A_rule))
                    scenario_A_world in
  obj (_schema_from_spec scenario_A_spec w).2 0 !! "asset"
  = obj w 0 !! "asset".
Proof.
  intros w. apply (spec_rules_keep_their_other_keys scenario_A_spec).
  - apply NoDup_singleton.
  - vm_compute. reflexivity.
  - apply list_elem_of_here.
  - rewrite !not_elem_of_cons. repeat split; try discriminate.
    apply not_elem_of_nil.
Defined.


(** ** The normalizer *)

(** X13.  Wrapping is idempotent: a dictionary whose strings under
    ['field'] and ['tag_field'] have been wrapped is not changed by being
    wrapped again. *)
Theorem wrap_items_idempotent (d : dict) :
  wrap_items (wrap_items d) = wrap_items d.
Proof.
  apply map_eq. intros k. rewrite !wrap_items_lookup.
  destruct (d !! k) as [v|]; [|done]. cbn. f_equal.
  unfold to_single_item_list.
  destruct (bool_decide (k ∈ _single_item_list_keys)); [|done].
  by destruct v.
Qed.

(** X14.  Unwrapping undoes wrapping: for a dictionary with no list under
    ['field'] or ['tag_field'], the schema-to-spec loop accepts what the
    spec-to-schema loop made of it and gives the dictionary back. *)
Theorem unwrap_items_wrap_items (d : dict) :
  fields_scalar d = true →
  unwrap_items (wrap_items d) = inr d.
Proof.
  intros Hd. unfold unwrap_items. rewrite items_ok_fields_ok.
  rewrite (fields_ok_wrap_lookup d) by (auto using wrap_items_lookup).
  by rewrite unwrap_wrap_items.
Qed.

Lemma unwrap_items_wrap_items_witness :
  unwrap_items (wrap_items scenario_A_rule) = inr scenario_A_rule.
Proof. apply unwrap_items_wrap_items. vm_compute. reflexivity. Defined.

(** ** Deriving a spec, further *)

Lemma _spec_from_schema_returns (w : World) (spec : Spec dict) :
  NoDup (rules (schema w)) →
  Forall (λ l, rule_shaped (obj w l) = true) (rules (schema w)) →
  _spec_from_schema w = Ok spec →
  spec = mkSpec (name (schema w)) (Some (include_in_reports (schema w)))
           ((λ l, derived_rule (schema w) (obj w l)) <$> rules (schema w)).
Proof.
  intros Hnd Hshaped. rewrite (_spec_from_schema_run w Hnd Hshaped).
  destruct (forallb _ _); [|done]. by intros [= <-].
Qed.

(** X15.  When a spec is derived from a schema whose rules are distinct
    objects the loop can read, every key of a rule other than ['to'],
    ['ref_id'], ['field'], ['tag_field'] and ['condition'] holds in the
    spec what it holds in the schema; the name and include_in_reports of
    the spec are those of the schema. *)
Theorem derived_rules_keep_their_other_keys (w : World) (spec : Spec dict) :
  NoDup (rules (schema w)) →
  Forall (λ l, rule_shaped (obj w l) = true) (rules (schema w)) →
  _spec_from_schema w = Ok spec →
  spec_name spec = name (schema w)
  ∧ spec_include_in_reports spec = Some (include_in_reports (schema w))
  ∧ Forall2 (λ l r',
       ∀ k, k ∉ ["to"; "ref_id"; "field"; "tag_field"; "condition"] →
            r' !! k = obj w l !! k)
      (rules (schema w)) (spec_rules spec).
Proof.
  intros Hnd Hshaped Hrun.
  rewrite (_spec_from_schema_returns w spec Hnd Hshaped Hrun).
  cbn [spec_name spec_include_in_reports spec_rules].
  split; [done|]. split; [done|].
  apply Forall2_fmap_r, Forall_Forall2_diag.
  eapply Forall_impl; [exact Hshaped|]. intros l Hl. unfold compose.
  cbn beta in *. intros k Hk.
  destruct (derived_rule_shaped (schema w) _ Hl) as (ref & _ & ->).
  rewrite !not_elem_of_cons in Hk.
  destruct Hk as (? & ? & ? & ? & ? & _).
  rewrite spec_form_lookup, renamed_lookup_ne by done.
  apply from_single_item_list_other.
  by intros [?|?]%single_item_list_key_cases.
Qed.

Lemma derived_rules_keep_their_other_keys_witness :
  ∃ spec : Spec dict,
    _spec_from_schema dangling_world = Ok spec
    ∧ spec_name spec = name (schema dangling_world)
    ∧ spec_include_in_reports spec
      = Some (include_in_reports (schema dangling_world))
    ∧ Forall2 (λ l r',
         ∀ k, k ∉ ["to"; "ref_id"; "field"; "tag_field"; "condition"] →
              r' !! k = obj dangling_world l !! k)
        (rules (schema dangling_world)) (spec_rules spec).
Proof.
  eexists. split; [vm_compute; reflexivity|].
  apply derived_rules_keep_their_other_keys.
  - apply NoDup_singleton.
  - repeat constructor.
  - vm_compute. reflexivity.
Defined.

(** X16.  When a spec is derived from a schema whose rules are distinct
    objects the loop can read and whose groups other than "Other" have
    distinct ref_ids, a rule that refers to a group (by a true
    ['ref_id'], else by ['to']) has the name of that group under ['to']
    in the spec, and its ['ref_id'], if it was true, is gone. *)
Theorem derived_rules_name_their_groups (w : World) (spec : Spec dict) :
  NoDup (rules (schema w)) →
  Forall (λ l, rule_shaped (obj w l) = true) (rules (schema w)) →
  NoDup (item_ref_id <$> registry (schema w)) →
  _spec_from_schema w = Ok spec →
  Forall2 (λ l r',
     ∀ item, item ∈ registry (schema w) →
             schema_reference (obj w l) = Some (item_ref_id item) →
             r' !! "to" = Some (item_name item)
             ∧ (truthy (dict_get (obj w l) "ref_id") = true →
                r' !! "ref_id" = None))
    (rules (schema w)) (spec_rules spec).
Proof.
  intros Hnd Hshaped Hids Hrun.
  rewrite (_spec_from_schema_returns w spec Hnd Hshaped Hrun).
  cbn [spec_rules]. apply Forall2_fmap_r, Forall_Forall2_diag.
  apply Forall_forall. intros l _. unfold compose. cbn beta.
  intros item Hitem Href. unfold derived_rule. rewrite Href.
  rewrite (_get_name_by_ref_id_registry _ _ Hids Hitem).
  rewrite !spec_form_lookup by done.
  rewrite !from_single_item_list_other
    by (by intros [?|?]%single_item_list_key_cases).
  unfold renamed. rewrite lookup_insert_eq. split; [done|]. intros ->.
  by rewrite lookup_insert_ne, lookup_delete_eq.
Qed.

Lemma derived_rules_name_their_groups_witness :
  ∃ spec : Spec dict,
    _spec_from_schema scenario_A_result = Ok spec
    ∧ Forall2 (λ l r',
         ∀ item, item ∈ registry (schema scenario_A_result) →
                 schema_reference (obj scenario_A_result l)
                 = Some (item_ref_id item) →
                 r' !! "to" = Some (item_name item)
                 ∧ (truthy (dict_get (obj scenario_A_result l) "ref_id")
                    = true → r' !! "ref_id" = None))
        (rules (schema scenario_A_result)) (spec_rules spec).
Proof.
  eexists. split; [vm_compute; reflexivity|].
  apply derived_rules_name_their_groups.
  - apply NoDup_singleton.
  - repeat constructor.
  - vm_compute. apply NoDup_singleton.
  - vm_compute. reflexivity.
Defined.


(** ** The client, further *)

Section UpdateWithSchema.
Context {Σ : Type}.
Variable http_get_index : ST Σ (list (string * value)).
Variable http_get : string → ST Σ (Schema loc).
Variable http_put : string → Schema loc → ST Σ unit.
Variable int_parses : string → bool.

(** X17.  An update with a schema whose name is a true value other than
    the name the perspective has on the service raises the name mismatch
    error, and the state of the service is as the fetch of the
    perspective left it: nothing has been put.  The spec, given or not,
    plays no part. *)
Theorem update_with_schema_checks_the_name perspective_input
    (schema : Schema loc) (spec : option (Spec loc)) (σ σ1 : Σ)
    (perspective : Perspective) :
  client_get http_get_index http_get int_parses perspective_input σ
  = (Ok perspective, σ1) →
  truthy (name schema) = true →
  name (_schema perspective) ≠ name schema →
  update http_get_index http_get http_put int_parses
         perspective_input (Some schema) spec σ
  = (Raise (RuntimeError NameDoesNotMatch), σ1).
Proof.
  intros Hget Htrue Hne. unfold update, mbind, ST_bind, bind.
  rewrite Hget. rewrite bool_decide_eq_true_2 by (left; eauto).
  rewrite Htrue. unfold mret, ST_ret, ret.
  by rewrite bool_decide_eq_true_2.
Qed.
End UpdateWithSchema.

Lemma update_with_schema_checks_the_name_witness :
  update remote_index remote_get remote_put is_numeral "42"
         (Some (mkSchema (VStr "Env") (VList []) [] (VStr "true") []))
         None scenario_E_remote
  = (Raise (RuntimeError NameDoesNotMatch),
     (client_get remote_index remote_get is_numeral "42"
                 scenario_E_remote).2).
Proof.
  eapply update_with_schema_checks_the_name.
  - vm_compute. reflexivity.
  - reflexivity.
  - discriminate.
Defined.

(** X18.  Against the store, a name that does not parse as an integer and
    is the name of no perspective of the index is looked up under the id
    "None"; when the store has nothing there, what comes back is the
    service's empty perspective, and the client raises the "does not
    exist" error after one request for the index and two for the
    schema, the store as it was. *)
Theorem client_get_unknown_name (int_parses : string → bool)
    (perspective_input : string) (σ : Remote) :
  int_parses perspective_input = false →
  (∀ p, p ∈ listing σ → p.2 ≠ VStr perspective_input) →
  stored σ !! "v1/perspective_schemas/None" = None →
  client_get remote_index remote_get int_parses perspective_input σ
  = (Raise (RuntimeError DoesNotExist),
     mkRemote (listing σ) (stored σ)
       (requests σ ++ [GET "v1/perspective_schemas/";
                       GET "v1/perspective_schemas/None";
                       GET "v1/perspective_schemas/None"])).
Proof.
  intros Hint Hlist Hstored.
  unfold client_get, _get_perspective_id, index, mbind, ST_bind, bind.
  rewrite Hint. unfold remote_index at 1. cbn [fst snd].
  assert (Hfind : List.find
                    (λ p : string * value,
                       bool_decide (p.2 = VStr perspective_input))
                    (listing σ) = None).
  { destruct (List.find _ _) as [p|] eqn:Hfind; [|done]. exfalso.
    apply find_some in Hfind as [Hin Heq%bool_decide_eq_true].
    apply (Hlist p); [by apply list_elem_of_In|done]. }
  unfold mret at 1, ST_ret, ret. rewrite Hfind.
  cbn [fmap option_fmap option_map default].
  unfold Perspective_init. rewrite bool_decide_eq_false_2 by done.
  change ("v1/perspective_schemas" +:+ "/" +:+ "None")
    with "v1/perspective_schemas/None".
  unfold get_schema, mbind, ST_bind, bind, remote_get.
  cbn [negb fst snd _uri _new_ref_id _id _schema listing stored requests].
  rewrite Hstored. unfold mret, ST_ret, ret.
  cbn [default name empty_response _schema].
  cbn [negb fst snd _uri _new_ref_id _id _schema listing stored requests].
  rewrite Hstored. cbn [default name empty_response _schema].
  rewrite bool_decide_eq_true_2 by done. unfold raise.
  by rewrite <-!(assoc_L (++)).
Qed.

Lemma client_get_unknown_name_witness :
  client_get remote_index remote_get is_numeral "Env" scenario_E_remote
  = (Raise (RuntimeError DoesNotExist),
     mkRemote (listing scenario_E_remote) (stored scenario_E_remote)
       (requests scenario_E_remote
        ++ [GET "v1/perspective_schemas/";
            GET "v1/perspective_schemas/None";
            GET "v1/perspective_schemas/None"])).
Proof.
  apply client_get_unknown_name.
  - reflexivity.
  - intros p Hp%list_elem_of_singleton. subst p. discriminate.
  - reflexivity.
Defined.


Section ExistsAndGet.
Context {Σ : Type}.
Variable http_get_index : ST Σ (list (string * value)).
Variable int_parses : string → bool.

(** X19.  For a name that does not parse as an integer, [check_exists]
    and [_get_perspective_id] agree: both ask for the index once, fail
    with it if it fails, and [check_exists] answers [True] exactly when
    [_get_perspective_id] answers an id. *)
Theorem check_exists_agrees_with_get_perspective_id
    (perspective_input : string) (σ : Σ) :
  int_parses perspective_input = false →
  check_exists http_get_index (VStr perspective_input) σ
  = (match (_get_perspective_id http_get_index int_parses
              perspective_input σ).1 with
     | Ok perspective_id => Ok (bool_decide (is_Some perspective_id))
     | Raise e => Raise e
     | Diverged => Diverged
     end,
     (_get_perspective_id http_get_index int_parses perspective_input σ).2).
Proof.
  intros Hint. unfold check_exists, _get_perspective_id. rewrite Hint.
  unfold mbind, ST_bind, bind, index.
  destruct (http_get_index σ) as [[perspectives| |] σ']; [|done..].
  unfold mret, ST_ret, ret. cbn [fst snd]. do 2 f_equal.
  induction perspectives as [|p perspectives IH]; [done|]. cbn.
  destruct (bool_decide (p.2 = VStr perspective_input)); cbn;
    [done|exact IH].
Qed.
End ExistsAndGet.

Lemma check_exists_agrees_with_get_perspective_id_witness :
  check_exists remote_index (VStr "Other") scenario_E_remote
  = (match (_get_perspective_id remote_index is_numeral "Other"
              scenario_E_remote).1 with
     | Ok perspective_id => Ok (bool_decide (is_Some perspective_id))
     | Raise e => Raise e
     | Diverged => Diverged
     end,
     (_get_perspective_id remote_index is_numeral "Other"
        scenario_E_remote).2).
Proof.
  apply check_exists_agrees_with_get_perspective_id. reflexivity.
Defined.

(** X20.  Against the store, [update_cloudhealth] of a perspective that
    has an id puts, under the uri of the perspective, the schema it was
    given (its own when given none) with the same name, merges, flag and
    rules and with exactly the constants that are not of type 'Dynamic
    Group', then fetches the schema again: the perspective it returns
    holds what the store now has. *)
Theorem update_cloudhealth_strips_dynamic_groups (self : Perspective)
    (schema : option (Schema loc)) (σ : Remote) :
  has_id self = true →
  ∃ body : Schema loc,
    update_cloudhealth remote_get remote_put self schema σ
    = (Ok (mkPerspective (_new_ref_id self) (_id self) (_uri self) body),
       mkRemote (listing σ) (<[_uri self := body]> (stored σ))
         (requests σ ++ [PUT (_uri self) body; GET (_uri self)]))
    ∧ name body = name (default (_schema self) schema)
    ∧ merges body = merges (default (_schema self) schema)
    ∧ include_in_reports body
      = include_in_reports (default (_schema self) schema)
    ∧ rules body = rules (default (_schema self) schema)
    ∧ ∀ c, c ∈ constants body
           ↔ c ∈ constants (default (_schema self) schema)
             ∧ const_type c ≠ "Dynamic Group".
Proof.
  intros Hid. unfold update_cloudhealth. rewrite Hid.
  eexists. split.
  - unfold mbind, ST_bind, bind, remote_put, get_schema, remote_get.
    unfold mret, ST_ret, ret.
    unfold mbind, ST_bind, bind.
    cbn [fst snd listing stored requests _uri _new_ref_id _id _schema].
    rewrite lookup_insert_eq. cbn [default id].
    by rewrite <-(assoc_L (++)).
  - cbn [name merges include_in_reports rules constants set_constants].
    do 4 (split; [done|]).
    intros c. rewrite list_elem_of_filter. tauto.
Qed.

Lemma update_cloudhealth_strips_dynamic_groups_witness :
  ∃ body : Schema loc,
    update_cloudhealth remote_get remote_put (self scenario_D_world) None
      scenario_E_remote
    = (Ok (mkPerspective (_new_ref_id (self scenario_D_world))
             (_id (self scenario_D_world)) (_uri (self scenario_D_world))
             body),
       mkRemote (listing scenario_E_remote)
         (<[_uri (self scenario_D_world) := body]> (stored scenario_E_remote))
         (requests scenario_E_remote
          ++ [PUT (_uri (self scenario_D_world)) body;
              GET (_uri (self scenario_D_world))]))
    ∧ name body = name (default (_schema (self scenario_D_world)) None)
    ∧ merges body = merges (default (_schema (self scenario_D_world)) None)
    ∧ include_in_reports body
      = include_in_reports (default (_schema (self scenario_D_world)) None)
    ∧ rules body = rules (default (_schema (self scenario_D_world)) None)
    ∧ ∀ c, c ∈ constants body
           ↔ c ∈ constants (default (_schema (self scenario_D_world)) None)
             ∧ const_type c ≠ "Dynamic Group".
Proof. apply update_cloudhealth_strips_dynamic_groups. reflexivity. Defined.


(** ** Where a new group goes *)

(** X21.  When the name is not registered with a true ref_id,
    [_add_constant] returns the numeral the allocator gives, and the new
    group [{ref_id, name}] is appended to the items of the first constant
    of the requested type; when the schema has no constant of that type,
    one is appended to the constants with the new group for its only
    item.  Nothing else of the schema changes. *)
Theorem _add_constant_appends (w : World) (constant_name : value)
    (constant_type : string) :
  truthy (_get_ref_id_by_name constant_name (schema w)) = false →
  ∃ n : N,
    let new_group := mkItem (VStr (str n)) constant_name None in
    _add_constant constant_name constant_type w
    = (Ok (VStr (str n)),
       set_schema
         (set_constants
            match list_find (λ c, const_type c = constant_type)
                            (constants (schema w)) with
            | Some (i, _) =>
                alter (list_append new_group) i (constants (schema w))
            | None =>
                constants (schema w)
                ++ [mkConstant constant_type [new_group]]
            end)
         (set_new_ref_id n w))
    ∧ (_new_ref_id (self w) < n)%N
    ∧ VStr (str n) ∉ existing_ref_ids (schema w).
Proof.
  intros Hnew.
  destruct (_add_constant_new constant_name constant_type w Hnew)
    as (n & l1 & l2 & c & Hcs & Hc & Hbefore & Hn & Hfree & Hrun).
  exists n. cbv zeta. split; [|done]. rewrite Hrun. do 3 f_equal.
  destruct Hcs as [Hcs|(Hcs & -> & ->)]; rewrite Hcs.
  - assert (Hfind : list_find (λ c, const_type c = constant_type)
                              (l1 ++ c :: l2) = Some (length l1, c)).
    { apply list_find_Some. split; [by apply list_lookup_middle|].
      split; [done|]. intros j c' Hj Hlt.
      rewrite Forall_forall in Hbefore. apply Hbefore.
      rewrite lookup_app_l in Hj by done. by eapply list_elem_of_lookup_2. }
    rewrite Hfind. by rewrite alter_app_r_alt, Nat.sub_diag by lia.
  - assert (Hfind : list_find (λ c, const_type c = constant_type) l1 = None).
    { by apply list_find_None. }
    by rewrite Hfind.
Qed.

Lemma _add_constant_appends_witness :
  ∃ n : N,
    let new_group := mkItem (VStr (str n)) (VStr "Platform") None in
    _add_constant (VStr "Platform") "Dynamic Group Block" fresh_world
    = (Ok (VStr (str n)),
       set_schema
         (set_constants
            match list_find (λ c, const_type c = "Dynamic Group Block")
                            (constants (schema fresh_world)) with
            | Some (i, _) =>
                alter (list_append new_group) i
                      (constants (schema fresh_world))
            | None =>
                constants (schema fresh_world)
                ++ [mkConstant "Dynamic Group Block" [new_group]]
            end)
         (set_new_ref_id n fresh_world))
    ∧ (_new_ref_id (self fresh_world) < n)%N
    ∧ VStr (str n) ∉ existing_ref_ids (schema fresh_world).
Proof. apply _add_constant_appends. reflexivity. Defined.
